(** * length.hpp: compile-time tagged lengths over IEEE binary64

    A shallow embedding of [include/length/length.hpp].  The header uses
    [std::ratio] for the scale of each unit and [double] for the
    magnitude; both are modelled here: [std::ratio] as a pair of integers
    kept in lowest terms, [double] as the binary64 instance of the
    Standard Library's [SpecFloat] (round to nearest, ties to even, one
    NaN). *)

From Stdlib Require Import ZArith QArith Qabs Qpower Qfield Bool Lia Lqa List.
From Stdlib Require Import Floats.SpecFloat.
Import ListNotations.

Local Open Scope Z_scope.

(** ** [<ratio>]: compile-time rationals *)

Module StdRatio.

(** [std::ratio<N, D>]: the members [num] and [den] are in lowest terms
    and the sign is carried by [num]. *)
Record ratio : Set := mk_ratio { num : Z; den : Z }.

Definition make (N D : Z) : ratio :=
  {| num := Z.sgn N * Z.sgn D * (Z.abs N / Z.gcd N D);
     den := Z.abs D / Z.gcd N D |}.

(** [std::ratio_multiply<R1, R2>] and [std::ratio_divide<R1, R2>]. *)
Definition ratio_multiply (r1 r2 : ratio) : ratio :=
  make (num r1 * num r2) (den r1 * den r2).

Definition ratio_divide (r1 r2 : ratio) : ratio :=
  make (num r1 * den r2) (den r1 * num r2).

Definition centi : ratio := make 1 100.
Definition milli : ratio := make 1 1000.

(** The rational a ratio denotes (meaningful when [den] is positive). *)
Definition to_Q (r : ratio) : Q := Qmake (num r) (Z.to_pos (den r)).

End StdRatio.

(** ** [double]: IEEE 754 binary64 *)

Module Double.

Definition prec : Z := 53.
Definition emax : Z := 1024.

Definition double : Set := spec_float.

(** The values of [spec_float] that are binary64 numbers: mantissa in
    canonical position and exponent in range. *)
Definition is_double (x : double) : bool := valid_binary prec emax x.

Definition fmul : double -> double -> double := SFmul prec emax.
Definition fdiv : double -> double -> double := SFdiv prec emax.
Definition fadd : double -> double -> double := SFadd prec emax.
Definition fsub : double -> double -> double := SFsub prec emax.
Definition feqb : double -> double -> bool := SFeqb.
Definition fltb : double -> double -> bool := SFltb.

(** [static_cast<double>(n)] for an integer [n]. *)
Definition of_Z (n : Z) : double := binary_normalize prec emax n 0 false.

Definition pzero : double := S754_zero false.
Definition nzero : double := S754_zero true.
Definition pinf : double := S754_infinity false.
Definition ninf : double := S754_infinity true.
Definition nan : double := S754_nan.
Definition one : double := of_Z 1.

Definition is_nan (x : double) : bool :=
  match x with S754_nan => true | _ => false end.

Definition is_finite (x : double) : bool :=
  match x with S754_zero _ | S754_finite _ _ _ => true | _ => false end.

(** A decimal literal [n / d] with [n] and [d] below [2^53]: the
    binary64 number nearest to the quotient. *)
Definition decimal (n d : Z) : double := fdiv (of_Z n) (of_Z d).

(** The rational [m * 2^e] of a mantissa and an exponent, and the
    rational value of a number (0 for zeros, infinities and NaN). *)
Definition absQ (m : positive) (e : Z) : Q := (inject_Z (Z.pos m) * 2 ^ e)%Q.

Definition to_Q (x : double) : Q :=
  match x with
  | S754_finite true m e => (- absQ m e)%Q
  | S754_finite false m e => absQ m e
  | _ => 0%Q
  end.

(** The binary order of magnitude of a finite non-zero number [x]: the
    integer [k] with [2^(k-1) <= |x| < 2^k]. *)
Definition magnitude (x : double) : option Z :=
  match x with
  | S754_finite _ m e => Some (Z.pos (digits2_pos m) + e)
  | _ => None
  end.

Definition in_range (lo hi : Z) (x : double) : bool :=
  match magnitude x with
  | Some k => (lo <=? k) && (k <=? hi)
  | None => false
  end.

(** The unit roundoff of binary64, [2^-53]. *)
Definition u : Q := 1 # 9007199254740992.

(** Where a rational lies between an integer and its successor. *)
Definition located (m : Z) (l : location) (q : Q) : Prop :=
  match l with
  | loc_Exact => (q == inject_Z m)%Q
  | loc_Inexact Lt => (inject_Z m < q /\ q < inject_Z m + (1 # 2))%Q
  | loc_Inexact Eq => (q == inject_Z m + (1 # 2))%Q
  | loc_Inexact Gt => (inject_Z m + (1 # 2) < q /\ q < inject_Z m + 1)%Q
  end.

Definition located_rec (mrs : shr_record) (q : Q) : Prop :=
  located (shr_m mrs) (loc_of_shr_record mrs) q.

(** [x] is [v] up to a relative error of [eps], for positive [v]. *)
Definition close (eps x v : Q) : Prop :=
  ((1 - eps) * v <= x /\ x <= (1 + eps) * v)%Q.

(** An integer between 1 and [2^13] that [static_cast<double>] represents
    exactly, as a normal number. *)
Definition exact_const (k : Z) : bool :=
  match of_Z k with
  | S754_finite false m e =>
      (Z.pos (digits2_pos m) =? 53) && (1 <=? 53 + e) && (53 + e <=? 13)
      && Qeq_bool (absQ m e) (inject_Z k)
  | _ => false
  end.

(** The relative error allowed on one conversion, [3 * 2^-53], and on a
    conversion there and back, [2^-50]. *)
Definition eps_convert : Q := 3 # 9007199254740992.
Definition eps_roundtrip : Q := 1 # 1125899906842624.

(** A magnitude with the sign bit [s] applied. *)
Definition sg (s : bool) (q : Q) : Q := if s then (- q)%Q else q.

(** A zero of either sign. *)
Definition is_zero (x : double) : bool :=
  match x with S754_zero _ => true | _ => false end.

(** A normal number: finite, non-zero and at least [2^-1022] in absolute
    value, so that it carries all 53 bits. *)
Definition is_normal (x : double) : bool :=
  match magnitude x with Some k => -1021 <=? k | None => false end.

(** The relative error of one operation whose result is normal, measured
    against the exact result: [1 / (2^53 - 1)]. *)
Definition eps_op : Q := 1 # 9007199254740991.

(** An operation of exact result [v] that returns [r] has neither
    overflowed nor underflowed, in the sense of IEEE 754: [r] is a normal
    number, or [r] is finite and is [v] itself. *)
Definition safe_result (r : double) (v : Q) : Prop :=
  is_normal r = true \/ (is_finite r = true /\ (to_Q r == v)%Q).

End Double.

(** ** The header *)

Module length.

Import StdRatio Double.

(** The five unit structs; the [static_assert] of [Length] admits no
    other type. *)
Inductive length_unit : Set :=
| metre | centimetre | millimetre | inch | foot.

(** [Unit::ratio] *)
Definition ratio_of (u : length_unit) : ratio :=
  match u with
  | metre => make 1 1
  | centimetre => centi
  | millimetre => milli
  | inch => ratio_multiply (make 254 100) centi
  | foot => ratio_multiply (make 12 1) (ratio_multiply (make 254 100) centi)
  end.

Definition registry : list length_unit :=
  [metre; centimetre; millimetre; inch; foot].

(** [std::is_same_v<Unit1, Unit2>] *)
Definition is_same (u1 u2 : length_unit) : bool :=
  match u1, u2 with
  | metre, metre | centimetre, centimetre | millimetre, millimetre
  | inch, inch | foot, foot => true
  | _, _ => false
  end.

(** [class Length<Unit>]: the unit is a parameter of the type, the
    magnitude its only field. *)
Record Length (U : length_unit) : Set := mkLength { value : double }.
Arguments mkLength U _ : clear implicits.
Arguments value {U} _.

(** [Length(double val = 0.0)] *)
Definition default {U} : Length U := mkLength U pzero.

Definition convert (From To : length_unit) (from : Length From) : Length To :=
  let r := ratio_divide (ratio_of From) (ratio_of To) in
  mkLength To (fdiv (fmul (value from) (of_Z (num r))) (of_Z (den r))).

(** [operator==]: the [if constexpr] branch returns before the
    conversion when both units are the same. *)
Definition eq_cross {U1 U2} (lhs : Length U1) (rhs : Length U2) : bool :=
  feqb (value lhs) (value (convert U2 U1 rhs)).

Definition eq_op {U1 U2} (lhs : Length U1) (rhs : Length U2) : bool :=
  if is_same U1 U2 then feqb (value lhs) (value rhs)
  else eq_cross lhs rhs.

(** [operator+]: the two-unit template and its same-unit overload. *)
Definition add_cross {U1 U2} (lhs : Length U1) (rhs : Length U2) : Length U1 :=
  mkLength U1 (fadd (value lhs) (value (convert U2 U1 rhs))).

Definition add_same {U} (lhs rhs : Length U) : Length U :=
  mkLength U (fadd (value lhs) (value rhs)).

(** Overload resolution prefers the more specialised template. *)
Definition add {U1 U2} (lhs : Length U1) (rhs : Length U2) : Length U1 :=
  if is_same U1 U2 then mkLength U1 (fadd (value lhs) (value rhs))
  else add_cross lhs rhs.

(** [operator-] *)
Definition sub_cross {U1 U2} (lhs : Length U1) (rhs : Length U2) : Length U1 :=
  mkLength U1 (fsub (value lhs) (value (convert U2 U1 rhs))).

Definition sub_same {U} (lhs rhs : Length U) : Length U :=
  mkLength U (fsub (value lhs) (value rhs)).

Definition subtract {U1 U2} (lhs : Length U1) (rhs : Length U2) : Length U1 :=
  if is_same U1 U2 then mkLength U1 (fsub (value lhs) (value rhs))
  else sub_cross lhs rhs.

(** [operator*]: both overloads evaluate [k * length.value()]. *)
Definition scale_l {U} (k : double) (x : Length U) : Length U :=
  mkLength U (fmul k (value x)).

Definition scale_r {U} (x : Length U) (k : double) : Length U :=
  mkLength U (fmul k (value x)).

(** [operator/] by a scalar and by a length. *)
Definition div_scalar {U} (x : Length U) (k : double) : Length U :=
  mkLength U (fdiv (value x) k).

Definition div_length {U1 U2} (lhs : Length U1) (rhs : Length U2) : double :=
  fdiv (value lhs) (value (convert U2 U1 rhs)).

(** The literal operators taking [unsigned long long]. *)
Definition lit (U : length_unit) (n : Z) : Length U := mkLength U (of_Z n).

(** A length in canonical metres: magnitude times the scale of its unit. *)
Definition scaleQ (u : length_unit) : Q := StdRatio.to_Q (ratio_of u).

Definition metres {U} (x : Length U) : Q := (Double.to_Q (value x) * scaleQ U)%Q.

(** Neither operation of [convert<From,To>] rounds at [x]. *)
Definition converts_exactly (From To : length_unit) (x : double) : Prop :=
  let r := ratio_divide (ratio_of From) (ratio_of To) in
  let p := fmul x (of_Z (num r)) in
  (Double.to_Q p == Double.to_Q x * inject_Z (num r))%Q
  /\ (Double.to_Q (fdiv p (of_Z (den r)))
      == Double.to_Q p / inject_Z (den r))%Q.

(** Neither operation of [convert<From,To>] overflows or underflows at
    [x]. *)
Definition converts_safely (From To : length_unit) (x : double) : Prop :=
  let r := ratio_divide (ratio_of From) (ratio_of To) in
  let p := fmul x (of_Z (num r)) in
  safe_result p (Double.to_Q x * inject_Z (num r))
  /\ safe_result (fdiv p (of_Z (den r))) (Double.to_Q p / inject_Z (den r)).

(** [convert<B,A>(convert<A,B>(Length<A>{m})).value()] *)
Definition roundtrip (A B : length_unit) (m : double) : double :=
  value (convert B A (convert A B (mkLength A m))).

(** The header's own tests: every [static_assert] at its end, evaluated
    in the model; [2.5], [0.2], [0.5] and [0.0254] are the decimal
    literals of the source. *)
Definition static_asserts : list bool :=
  [ eq_op (lit metre 1) (lit centimetre 100);
    eq_op (lit inch 12) (lit foot 1);
    eq_op (lit foot 1) (lit inch 12);
    eq_op (lit centimetre 250) (mkLength metre (decimal 25 10));
    eq_op (mkLength metre (decimal 25 10)) (lit centimetre 250);
    eq_op (lit foot 3) (lit inch 36);
    eq_op (lit millimetre 2) (mkLength centimetre (decimal 2 10));
    eq_op (lit metre 2) (convert centimetre millimetre (lit centimetre 200));
    eq_op (lit millimetre 2)
          (convert centimetre metre (mkLength centimetre (decimal 2 10)));
    eq_op (lit metre 1) (mkLength inch (fdiv (of_Z 1) (decimal 254 10000)));
    eq_op (scale_l (of_Z 4) (lit metre 1)) (scale_r (lit centimetre 50) (of_Z 8));
    eq_op (scale_r (lit millimetre 2) (of_Z 10))
          (scale_l (decimal 5 10) (lit centimetre 4));
    eq_op (scale_r (lit millimetre 2) (of_Z 10))
          (div_scalar (lit centimetre 4) (of_Z 2));
    eq_op (add (lit millimetre 200) (div_scalar (lit metre 3) (of_Z 6)))
          (add (scale_l (of_Z 2) (lit centimetre 10))
               (div_scalar (lit centimetre 50) (of_Z 1)));
    eq_op (div_scalar (lit metre 2) (of_Z 2))
          (div_scalar (lit inch 1) (decimal 254 10000));
    feqb (value (scale_l (div_length (add (scale_l (of_Z 2) (lit metre 5))
                                          (lit metre 10))
                                     (lit centimetre 200))
                         (lit metre 1)))
         (of_Z 10) ].

End length.

(** ** Facts about binary64 arithmetic *)

Module DoubleFacts.

Import Double.

Lemma iter_pos_swap {A} (f : A -> A) (p : positive) (x : A) :
  iter_pos f p (f x) = f (iter_pos f p x).
Proof.
  revert x. induction p as [p IH | p IH | ]; intro x; cbn [iter_pos].
  - rewrite !IH. reflexivity.
  - rewrite !IH. reflexivity.
  - reflexivity.
Qed.

Lemma iter_pos_succ_r {A} (f : A -> A) (p : positive) (x : A) :
  iter_pos f (Pos.succ p) x = iter_pos f p (f x).
Proof.
  revert x. induction p as [p IH | p IH | ]; intro x; cbn [Pos.succ iter_pos].
  - rewrite !IH, !iter_pos_swap. reflexivity.
  - reflexivity.
  - reflexivity.
Qed.

Lemma iter_xO_succ (m p : positive) :
  Pos.iter xO m (Pos.succ p) = xO (Pos.iter xO m p).
Proof. apply Pos.iter_succ. Qed.

Lemma Zpos_iter_xO (m p : positive) :
  Z.pos (Pos.iter xO m p) = Z.pos m * 2 ^ Z.pos p.
Proof.
  induction p as [ | p IH] using Pos.peano_ind.
  - cbn [Pos.iter]. lia.
  - rewrite iter_xO_succ, Pos2Z.inj_xO, IH, Pos2Z.inj_succ, Z.pow_succ_r by lia.
    ring.
Qed.

Lemma digits2_iter_xO (m p : positive) :
  Z.pos (digits2_pos (Pos.iter xO m p)) = Z.pos (digits2_pos m) + Z.pos p.
Proof.
  induction p as [ | p IH] using Pos.peano_ind.
  - cbn [Pos.iter digits2_pos]. lia.
  - rewrite iter_xO_succ. cbn [digits2_pos]. lia.
Qed.

(** Shifting out the zeros just shifted in loses nothing. *)
Lemma shr_iter_xO (m p : positive) :
  iter_pos shr_1 p (Build_shr_record (Z.pos (Pos.iter xO m p)) false false)
  = Build_shr_record (Z.pos m) false false.
Proof.
  induction p as [ | p IH] using Pos.peano_ind.
  - reflexivity.
  - rewrite iter_pos_succ_r, iter_xO_succ. cbn [shr_1 orb]. exact IH.
Qed.

Lemma canonical_fexp (m : positive) (e : Z) :
  bounded prec emax m e = true ->
  fexp prec emax (Z.pos (digits2_pos m) + e) = e /\ e <= emax - prec.
Proof.
  unfold bounded, canonical_mantissa. intro H.
  apply andb_true_iff in H. destruct H as [H1 H2].
  apply Z.eqb_eq in H1. apply Z.leb_le in H2. auto.
Qed.

(** A valid number keeps its mantissa within 53 bits and its exponent
    above the smallest one. *)
Lemma bounded_digits (m : positive) (e : Z) :
  bounded prec emax m e = true ->
  Z.pos (digits2_pos m) <= 53 /\ -1074 <= e
  /\ (Z.pos (digits2_pos m) < 53 -> e = -1074).
Proof.
  intro B. destruct (canonical_fexp m e B) as [Hf _].
  unfold fexp, emin, prec, emax in Hf. lia.
Qed.

(** A canonical mantissa rounds to itself. *)
Lemma round_aux_canonical (s : bool) (m : positive) (e : Z) :
  bounded prec emax m e = true ->
  binary_round_aux prec emax s (Z.pos m) e loc_Exact = S754_finite s m e.
Proof.
  intro H. destruct (canonical_fexp m e H) as [Hf He].
  unfold binary_round_aux, shr_fexp. cbn [Zdigits2 shr_record_of_loc].
  rewrite Hf, Z.sub_diag. cbn [shr shr_m round_nearest_even loc_of_shr_record].
  cbn [Zdigits2 shr_record_of_loc].
  rewrite Hf, Z.sub_diag. cbn [shr shr_m].
  apply Z.leb_le in He. rewrite He. reflexivity.
Qed.

(** So does a canonical mantissa padded with [p] low zeros. *)
Lemma round_aux_shifted (s : bool) (m p : positive) (e : Z) :
  bounded prec emax m e = true ->
  binary_round_aux prec emax s (Z.pos (Pos.iter xO m p)) (e - Z.pos p) loc_Exact
  = S754_finite s m e.
Proof.
  intro H. destruct (canonical_fexp m e H) as [Hf He].
  unfold binary_round_aux, shr_fexp at 1. cbn [Zdigits2 shr_record_of_loc].
  rewrite digits2_iter_xO.
  replace (Z.pos (digits2_pos m) + Z.pos p + (e - Z.pos p))
    with (Z.pos (digits2_pos m) + e) by ring.
  rewrite Hf.
  replace (e - (e - Z.pos p)) with (Z.pos p) by ring.
  cbn [shr]. rewrite shr_iter_xO.
  cbn [shr_m round_nearest_even loc_of_shr_record].
  replace (e - Z.pos p + Z.pos p) with e by ring.
  unfold shr_fexp. cbn [Zdigits2 shr_record_of_loc].
  rewrite Hf, Z.sub_diag. cbn [shr shr_m].
  apply Z.leb_le in He. rewrite He. reflexivity.
Qed.

Lemma one_eq : one = S754_finite false 4503599627370496 (-52).
Proof. reflexivity. Qed.

Lemma mul_pow52 (m : positive) :
  (m * 4503599627370496)%positive = Pos.iter xO m 52.
Proof.
  apply Pos2Z.inj. rewrite Zpos_iter_xO, Pos2Z.inj_mul. reflexivity.
Qed.

(** [x * 1.0] is [x]. *)
Lemma fmul_one_r (x : double) : is_double x = true -> fmul x one = x.
Proof.
  rewrite one_eq. destruct x as [s | s | | s m e]; intro H; cbn [is_double valid_binary] in H.
  - cbn. destruct s; reflexivity.
  - cbn. destruct s; reflexivity.
  - reflexivity.
  - unfold fmul, SFmul. rewrite xorb_false_r, mul_pow52.
    exact (round_aux_shifted s m 52 e H).
Qed.

Lemma div_eucl_mul (a b : Z) : 0 < b -> Z.div_eucl (a * b) b = (a, 0).
Proof.
  intro Hb. destruct (Z.div_eucl (a * b) b) as [q r] eqn:E.
  assert (Hq : q = a * b / b) by (unfold Z.div; rewrite E; reflexivity).
  assert (Hr : r = (a * b) mod b) by (unfold Z.modulo; rewrite E; reflexivity).
  rewrite Z.div_mul in Hq by lia. rewrite Z.mod_mul in Hr by lia.
  congruence.
Qed.

(** Dividing a canonical mantissa by the mantissa of [1.0] gives it
    back, possibly with one more low zero. *)
Lemma div_core_one (m : positive) (e : Z) :
  bounded prec emax m e = true ->
  SFdiv_core_binary prec emax (Z.pos m) e 4503599627370496 (-52)
  = (Z.pos m, e, loc_Exact)
  \/ SFdiv_core_binary prec emax (Z.pos m) e 4503599627370496 (-52)
     = (Z.pos (Pos.iter xO m 1), e - 1, loc_Exact).
Proof.
  intro H. destruct (canonical_fexp m e H) as [Hf _].
  unfold SFdiv_core_binary.
  change (Zdigits2 4503599627370496) with 53.
  cbn [Zdigits2].
  unfold fexp, emin, prec, emax in Hf |- *.
  set (d := Z.pos (digits2_pos m)) in *.
  destruct (Z_le_gt_dec (d + e - 53) (3 - 1024 - 53)) as [Hsub | Hnorm].
  - left.
    replace (Z.min (Z.max (d + e - (53 + -52) - 53) (3 - 1024 - 53)) (e - -52))
      with e by lia.
    replace (e - -52 - e) with 52 by ring.
    rewrite Z.shiftl_mul_pow2 by lia.
    rewrite div_eucl_mul by lia. reflexivity.
  - right.
    replace (Z.min (Z.max (d + e - (53 + -52) - 53) (3 - 1024 - 53)) (e - -52))
      with (e - 1) by lia.
    replace (e - -52 - (e - 1)) with 53 by ring.
    rewrite Z.shiftl_mul_pow2 by lia.
    replace (Z.pos m * 2 ^ 53) with (Z.pos (Pos.iter xO m 1) * 4503599627370496)
      by (cbn [Pos.iter]; rewrite Pos2Z.inj_xO; change (2 ^ 53) with (2 * 4503599627370496); ring).
    rewrite div_eucl_mul by lia. reflexivity.
Qed.

(** [x / 1.0] is [x]. *)
Lemma fdiv_one_r (x : double) : is_double x = true -> fdiv x one = x.
Proof.
  rewrite one_eq. destruct x as [s | s | | s m e]; intro H; cbn [is_double valid_binary] in H.
  - cbn. destruct s; reflexivity.
  - cbn. destruct s; reflexivity.
  - reflexivity.
  - unfold fdiv, SFdiv. rewrite xorb_false_r.
    destruct (div_core_one m e H) as [E | E]; rewrite E.
    + exact (round_aux_canonical s m e H).
    + exact (round_aux_shifted s m 1 e H).
Qed.

(** The identity conversion step, [x * 1.0 / 1.0]. *)
Lemma fmul_fdiv_one (x : double) :
  is_double x = true -> fdiv (fmul x one) one = x.
Proof. intro H. rewrite (fmul_one_r x H). exact (fdiv_one_r x H). Qed.

(** *** Rounding: the error of one multiplication or division *)

Lemma located_rec_of_loc (m : Z) (l : location) (q : Q) :
  located m l q -> located_rec (shr_record_of_loc m l) q.
Proof. destruct l as [ | [ | | ]]; exact (fun H => H). Qed.

Lemma shr_1_m (mrs : shr_record) :
  0 <= shr_m mrs -> shr_m (shr_1 mrs) = shr_m mrs / 2.
Proof.
  destruct mrs as [m r s]. cbn [shr_m]. intro H.
  destruct m as [ | p | p]; [reflexivity | | lia].
  rewrite <- Z.div2_div. destruct p; reflexivity.
Qed.

Lemma shr_1_located (mrs : shr_record) (q : Q) :
  0 <= shr_m mrs -> located_rec mrs q -> located_rec (shr_1 mrs) (q * (1 # 2)).
Proof.
  destruct mrs as [m r s]. unfold located_rec. cbn [shr_m]. intro H.
  destruct m as [ | p | p]; [ | | lia].
  - destruct r, s; cbn [shr_1 orb loc_of_shr_record shr_m located];
      change (inject_Z 0) with 0%Q; intro L; lra.
  - destruct p as [p | p | ].
    + assert (E : (inject_Z (Z.pos p~1) == 2 * inject_Z (Z.pos p) + 1)%Q)
        by (rewrite (Pos2Z.inj_xI p), inject_Z_plus, inject_Z_mult; reflexivity).
      destruct r, s; cbn [shr_1 orb loc_of_shr_record shr_m located]; intro L; lra.
    + assert (E : (inject_Z (Z.pos p~0) == 2 * inject_Z (Z.pos p))%Q)
        by (rewrite (Pos2Z.inj_xO p), inject_Z_mult; reflexivity).
      destruct r, s; cbn [shr_1 orb loc_of_shr_record shr_m located]; intro L; lra.
    + destruct r, s; cbn [shr_1 orb loc_of_shr_record shr_m located];
        change (inject_Z 0) with 0%Q; change (inject_Z 1) with 1%Q; intro L; lra.
Qed.

Lemma iter_shr_1 (p : positive) (mrs : shr_record) (q : Q) :
  0 <= shr_m mrs -> located_rec mrs q ->
  shr_m (iter_pos shr_1 p mrs) = shr_m mrs / 2 ^ Z.pos p
  /\ located_rec (iter_pos shr_1 p mrs) (q / inject_Z (2 ^ Z.pos p)).
Proof.
  revert mrs q. induction p as [ | p IH] using Pos.peano_ind; intros mrs q H L.
  - cbn [iter_pos]. split.
    + apply shr_1_m, H.
    + assert (E : (q / inject_Z (2 ^ 1) == q * (1 # 2))%Q) by (cbn; field).
      unfold located_rec in *. 
      pose proof (shr_1_located mrs q H L) as L1. unfold located_rec in L1.
      destruct (loc_of_shr_record (shr_1 mrs)) as [ | [ | | ]]; cbn [located] in *; lra.
  - rewrite iter_pos_succ_r.
    assert (H1 : 0 <= shr_m (shr_1 mrs)).
    { rewrite shr_1_m by exact H. apply Z.div_pos; lia. }
    destruct (IH (shr_1 mrs) (q * (1 # 2))%Q H1 (shr_1_located mrs q H L)) as [Em Lq].
    split.
    + rewrite Em, shr_1_m by exact H.
      rewrite Pos2Z.inj_succ, Z.pow_succ_r by lia.
      rewrite Z.div_div by lia. reflexivity.
    + assert (E : (q / inject_Z (2 ^ Z.pos (Pos.succ p))
                   == q * (1 # 2) / inject_Z (2 ^ Z.pos p))%Q).
      { rewrite Pos2Z.inj_succ, Z.pow_succ_r by lia.
        rewrite inject_Z_mult.
        assert (0 < 2 ^ Z.pos p) by (apply Z.pow_pos_nonneg; lia).
        assert (~ (inject_Z (2 ^ Z.pos p) == 0)%Q).
        { intro K. rewrite Zlt_Qlt in H0. rewrite K in H0. revert H0. cbn. apply Qlt_irrefl. }
        field. exact H2. }
      unfold located_rec in *.
      destruct (loc_of_shr_record (iter_pos shr_1 p (shr_1 mrs))) as [ | [ | | ]];
        cbn [located] in *; rewrite E; exact Lq.
Qed.

Lemma digits2_bounds (p : positive) :
  2 ^ (Z.pos (digits2_pos p) - 1) <= Z.pos p < 2 ^ Z.pos (digits2_pos p).
Proof.
  induction p as [p IH | p IH | ]; cbn [digits2_pos].
  - rewrite Pos2Z.inj_succ, (Pos2Z.inj_xI p).
    replace (Z.succ (Z.pos (digits2_pos p)) - 1) with (Z.succ (Z.pos (digits2_pos p) - 1)) by lia.
    rewrite !Z.pow_succ_r by lia.
    lia.
  - rewrite Pos2Z.inj_succ, (Pos2Z.inj_xO p).
    replace (Z.succ (Z.pos (digits2_pos p)) - 1) with (Z.succ (Z.pos (digits2_pos p) - 1)) by lia.
    rewrite !Z.pow_succ_r by lia.
    lia.
  - cbn. lia.
Qed.

Lemma digits2_unique (p : positive) (d : Z) :
  2 ^ (d - 1) <= Z.pos p < 2 ^ d -> Z.pos (digits2_pos p) = d.
Proof.
  intros [Hl Hu]. pose proof (digits2_bounds p) as [Bl Bu].
  set (k := Z.pos (digits2_pos p)) in *.
  assert (0 < k) by (subst k; lia).
  destruct (Z_lt_le_dec d 1) as [Hd | Hd].
  { assert (2 ^ d <= 2 ^ 0) by (apply Z.pow_le_mono_r; lia). cbn in *. lia. }
  destruct (Z.lt_trichotomy k d) as [Hlt | [Heq | Hgt]]; [ | exact Heq | ].
  - assert (2 ^ k <= 2 ^ (d - 1)) by (apply Z.pow_le_mono_r; lia). lia.
  - assert (2 ^ d <= 2 ^ (k - 1)) by (apply Z.pow_le_mono_r; lia). lia.
Qed.

Lemma inject_Z_pow2_pos (n : Z) : 0 <= n -> (0 < inject_Z (2 ^ n))%Q.
Proof.
  intro H. change 0%Q with (inject_Z 0). rewrite <- Zlt_Qlt.
  apply Z.pow_pos_nonneg; lia.
Qed.

Lemma shr_correct (mrs : shr_record) (e n : Z) (q : Q) :
  0 <= n -> 0 <= shr_m mrs -> located_rec mrs q ->
  exists mrs1,
    shr mrs e n = (mrs1, e + n)
    /\ shr_m mrs1 = shr_m mrs / 2 ^ n
    /\ located_rec mrs1 (q / inject_Z (2 ^ n)).
Proof.
  intros Hn Hm L. destruct n as [ | p | p]; [ | | lia].
  - exists mrs. cbn [shr]. rewrite Z.add_0_r, Z.pow_0_r, Z.div_1_r.
    repeat split.
    assert (E : (q / inject_Z 1 == q)%Q) by (change (inject_Z 1) with 1%Q; field).
    unfold located_rec in *.
    destruct (loc_of_shr_record mrs) as [ | [ | | ]]; cbn [located] in *;
      rewrite E; exact L.
  - exists (iter_pos shr_1 p mrs). cbn [shr].
    destruct (iter_shr_1 p mrs q Hm L) as [Em Lq]. auto.
Qed.

Lemma round_nearest_even_spec (m : Z) (l : location) (q : Q) :
  located m l q ->
  m <= round_nearest_even m l <= m + 1
  /\ (inject_Z (round_nearest_even m l) - (1 # 2) <= q
      /\ q <= inject_Z (round_nearest_even m l) + (1 # 2))%Q.
Proof.
  assert (E : (inject_Z (m + 1) == inject_Z m + 1)%Q)
    by (rewrite inject_Z_plus; reflexivity).
  destruct l as [ | [ | | ]]; cbn [located round_nearest_even]; intro L.
  - split; [lia | lra].
  - destruct (Z.even m); split; try lia; lra.
  - split; [lia | lra].
  - split; [lia | lra].
Qed.

Lemma round_aux_correct (s : bool) (M : positive) (E : Z) (l : location) (q : Q) :
  53 <= Z.pos (digits2_pos M) ->
  -1021 <= Z.pos (digits2_pos M) + E <= 1023 ->
  located (Z.pos M) l q ->
  exists m' e',
    binary_round_aux prec emax s (Z.pos M) E l = S754_finite s m' e'
    /\ bounded prec emax m' e' = true
    /\ Z.pos (digits2_pos M) + E <= Z.pos (digits2_pos m') + e'
                               <= Z.pos (digits2_pos M) + E + 1
    /\ E <= e'
    /\ ((1 - u) * q <= inject_Z (Z.pos m' * 2 ^ (e' - E))
        /\ inject_Z (Z.pos m' * 2 ^ (e' - E)) <= (1 + u) * q)%Q.
Proof.
  intros Hd Hr L.
  pose proof (digits2_bounds M) as HM.
  set (d := Z.pos (digits2_pos M)) in *.
  set (n := d - 53).
  assert (Hn : 0 <= n) by (subst n; lia).
  assert (Hpow1 : 2 ^ (d - 1) = 4503599627370496 * 2 ^ n).
  { replace (d - 1) with (52 + n) by (subst n; lia).
    rewrite Z.pow_add_r by lia. reflexivity. }
  assert (Hpow2 : 2 ^ d = 9007199254740992 * 2 ^ n).
  { replace d with (53 + n) at 1 by (subst n; lia).
    rewrite Z.pow_add_r by lia. reflexivity. }
  assert (HP : 0 < 2 ^ n) by (apply Z.pow_pos_nonneg; lia).
  destruct (shr_correct (shr_record_of_loc (Z.pos M) l) E n q Hn)
    as (mrs1 & Eshr & Em1 & Lq1).
  { destruct l as [ | [ | | ]]; cbn; lia. }
  { apply located_rec_of_loc, L. }
  assert (Em1' : shr_m mrs1 = Z.pos M / 2 ^ n).
  { rewrite Em1. destruct l as [ | [ | | ]]; reflexivity. }
  clear Em1.
  assert (Hm1 : 4503599627370496 <= shr_m mrs1 < 9007199254740992).
  { rewrite Em1'. split.
    - apply Z.div_le_lower_bound; lia.
    - apply Z.div_lt_upper_bound; lia. }
  unfold located_rec in Lq1.
  destruct (round_nearest_even_spec _ _ _ Lq1) as [Hm2 Hq2].
  set (m2 := round_nearest_even (shr_m mrs1) (loc_of_shr_record mrs1)) in *.
  set (q1 := (q / inject_Z (2 ^ n))%Q) in *.
  pose proof (inject_Z_pow2_pos n Hn) as HPq.
  assert (Eq1 : (q == q1 * inject_Z (2 ^ n))%Q).
  { subst q1. field. intro K. rewrite K in HPq. revert HPq. apply Qlt_irrefl. }
  assert (Hq1 : (inject_Z 4503599627370496 <= q1)%Q).
  { apply (Qmult_le_r _ _ (inject_Z (2 ^ n)) HPq).
    rewrite <- Eq1, <- inject_Z_mult.
    assert (Hq : (inject_Z (Z.pos M) <= q)%Q)
      by (destruct l as [ | [ | | ]]; cbn [located] in L; lra).
    apply Qle_trans with (2 := Hq). rewrite <- Zle_Qle. lia. }
  (* the value the code computes *)
  assert (Hres : exists m' e',
    binary_round_aux prec emax s (Z.pos M) E l = S754_finite s m' e'
    /\ bounded prec emax m' e' = true
    /\ d + E <= Z.pos (digits2_pos m') + e' <= d + E + 1
    /\ E <= e'
    /\ Z.pos m' * 2 ^ (e' - E) = m2 * 2 ^ n).
  { unfold binary_round_aux, shr_fexp at 1. cbn [Zdigits2]. fold d.
    replace (fexp prec emax (d + E) - E) with n
      by (unfold fexp, emin, prec, emax; subst n; lia).
    rewrite Eshr. fold m2.
    destruct (Z.eq_dec m2 9007199254740992) as [Hc | Hc].
    - rewrite Hc. unfold shr_fexp.
      change (Zdigits2 9007199254740992) with 54.
      replace (fexp prec emax (54 + (E + n)) - (E + n)) with 1
        by (unfold fexp, emin, prec, emax; subst n; lia).
      cbn [shr_record_of_loc shr iter_pos shr_1 orb shr_m].
      replace (E + n + 1 <=? emax - prec) with true
        by (symmetry; apply Z.leb_le; unfold emax, prec; subst n; lia).
      exists 4503599627370496%positive, (E + n + 1).
      split; [reflexivity |]. split.
      { unfold bounded, canonical_mantissa.
        change (Z.pos (digits2_pos 4503599627370496)) with 53.
        apply andb_true_iff. split.
        - apply Z.eqb_eq. unfold fexp, emin, prec, emax. subst n. lia.
        - apply Z.leb_le. unfold emax, prec. subst n. lia. }
      change (Z.pos (digits2_pos 4503599627370496)) with 53.
      split; [subst n; lia |]. split; [lia |].
      replace (E + n + 1 - E) with (1 + n) by ring.
      rewrite Z.pow_add_r by lia. change (2 ^ 1) with 2. ring.
    - assert (Hm2' : 4503599627370496 <= m2 < 9007199254740992) by lia.
      destruct m2 as [ | pm | pm] eqn:Epm; [lia | | lia].
      assert (Hdig : Z.pos (digits2_pos pm) = 53)
        by (apply digits2_unique; cbn; lia).
      unfold shr_fexp. cbn [Zdigits2]. rewrite Hdig.
      replace (fexp prec emax (53 + (E + n)) - (E + n)) with 0
        by (unfold fexp, emin, prec, emax; subst n; lia).
      cbn [shr_record_of_loc shr shr_m].
      replace (E + n <=? emax - prec) with true
        by (symmetry; apply Z.leb_le; unfold emax, prec; subst n; lia).
      exists pm, (E + n).
      split; [reflexivity |]. split.
      { unfold bounded, canonical_mantissa. rewrite Hdig.
        apply andb_true_iff. split.
        - apply Z.eqb_eq. unfold fexp, emin, prec, emax. subst n. lia.
        - apply Z.leb_le. unfold emax, prec. subst n. lia. }
      rewrite Hdig. split; [subst n; lia |]. split; [lia |].
      replace (E + n - E) with n by ring. reflexivity. }
  destruct Hres as (m' & e' & R1 & R2 & R3 & R4 & R5).
  exists m', e'. repeat (split; [assumption |]).
  rewrite R5, inject_Z_mult, Eq1.
  change (inject_Z 4503599627370496) with (4503599627370496 # 1)%Q in Hq1.
  assert (B : ((1 - u) * q1 <= inject_Z m2 /\ inject_Z m2 <= (1 + u) * q1)%Q)
    by (unfold u; lra).
  destruct B as [B1 B2]. split.
  - rewrite Qmult_assoc. apply Qmult_le_compat_r; [exact B1 | apply Qlt_le_weak, HPq].
  - rewrite Qmult_assoc. apply Qmult_le_compat_r; [exact B2 | apply Qlt_le_weak, HPq].
Qed.

Lemma Qpow2_pos (e : Z) : (0 < 2 ^ e)%Q.
Proof. apply Qpower_0_lt. reflexivity. Qed.

Lemma Qpow2_inject (k : Z) : 0 <= k -> (2 ^ k == inject_Z (2 ^ k))%Q.
Proof. intro H. rewrite Zpower_Qpower by exact H. reflexivity. Qed.

Lemma Qpow2_add (a b : Z) : (2 ^ (a + b) == 2 ^ a * 2 ^ b)%Q.
Proof. apply Qpower_plus. discriminate. Qed.

Lemma absQ_pos (m : positive) (e : Z) : (0 < absQ m e)%Q.
Proof.
  unfold absQ. apply Qmult_lt_0_compat; [ | apply Qpow2_pos].
  change 0%Q with (inject_Z 0). rewrite <- Zlt_Qlt. lia.
Qed.

(** The value of a mantissa given at a lower exponent. *)
Lemma absQ_shift (m : positive) (e E : Z) :
  E <= e -> (absQ m e == inject_Z (Z.pos m * 2 ^ (e - E)) * 2 ^ E)%Q.
Proof.
  intro H. unfold absQ.
  replace e with ((e - E) + E) at 1 by ring.
  rewrite Qpow2_add, Qpow2_inject, inject_Z_mult by lia. ring.
Qed.

Lemma pow2_lt_inv (a b : Z) : 0 <= b -> 2 ^ a < 2 ^ b -> a < b.
Proof. intros Hb H. apply (Z.pow_lt_mono_r_iff 2); lia. Qed.

Lemma digits2_le (p : positive) (k : Z) :
  Z.pos p < 2 ^ k -> Z.pos (digits2_pos p) <= k.
Proof.
  intro H. pose proof (digits2_bounds p) as [L _].
  destruct (Z_lt_le_dec k 0) as [Hk | Hk].
  { rewrite Z.pow_neg_r in H by lia. lia. }
  assert (K : 2 ^ (Z.pos (digits2_pos p) - 1) < 2 ^ k) by lia.
  apply pow2_lt_inv in K; lia.
Qed.

Lemma digits2_mul (mx my : positive) :
  Z.pos (digits2_pos mx) + Z.pos (digits2_pos my) - 1
  <= Z.pos (digits2_pos (mx * my))
  <= Z.pos (digits2_pos mx) + Z.pos (digits2_pos my).
Proof.
  pose proof (digits2_bounds mx) as [Lx Ux].
  pose proof (digits2_bounds my) as [Ly Uy].
  pose proof (digits2_bounds (mx * my)) as [L U].
  rewrite Pos2Z.inj_mul in L, U.
  set (dx := Z.pos (digits2_pos mx)) in *.
  set (dy := Z.pos (digits2_pos my)) in *.
  set (D := Z.pos (digits2_pos (mx * my))) in *.
  assert (Hdx : 0 < dx) by (subst dx; lia).
  assert (Hdy : 0 < dy) by (subst dy; lia).
  assert (HD : 0 < D) by (subst D; lia).
  assert (H1 : 2 ^ (D - 1) < 2 ^ (dx + dy)).
  { rewrite (Z.pow_add_r 2 dx dy) by lia.
    apply Z.le_lt_trans with (1 := L).
    apply Z.mul_lt_mono_nonneg; lia. }
  assert (H2 : 2 ^ (dx - 1 + (dy - 1)) < 2 ^ D).
  { rewrite (Z.pow_add_r 2 (dx - 1) (dy - 1)) by lia.
    apply Z.le_lt_trans with (2 := U).
    apply Z.mul_le_mono_nonneg; try lia; apply Z.pow_nonneg; lia. }
  apply pow2_lt_inv in H1; [ | lia]. apply pow2_lt_inv in H2; [ | lia]. lia.
Qed.

(** Multiplication of two finite numbers whose product is in the normal
    range: the result is the exact product up to a relative error of
    [2^-53]. *)
Lemma fmul_correct (sx sy : bool) (mx my : positive) (ex ey : Z) :
  let magx := Z.pos (digits2_pos mx) + ex in
  let magy := Z.pos (digits2_pos my) + ey in
  54 <= Z.pos (digits2_pos mx) + Z.pos (digits2_pos my) ->
  -1020 <= magx + magy <= 1023 ->
  exists m' e',
    SFmul prec emax (S754_finite sx mx ex) (S754_finite sy my ey)
    = S754_finite (xorb sx sy) m' e'
    /\ bounded prec emax m' e' = true
    /\ magx + magy - 1 <= Z.pos (digits2_pos m') + e' <= magx + magy + 1
    /\ ((1 - u) * (absQ mx ex * absQ my ey) <= absQ m' e'
        /\ absQ m' e' <= (1 + u) * (absQ mx ex * absQ my ey))%Q.
Proof.
  intros magx magy Hd Hr. subst magx magy.
  pose proof (digits2_mul mx my) as HD.
  destruct (round_aux_correct (xorb sx sy) (mx * my) (ex + ey) loc_Exact
              (inject_Z (Z.pos (mx * my)))) as (m' & e' & R1 & R2 & R3 & R4 & R5 & R6);
    [lia | lia | reflexivity | ].
  exists m', e'. unfold SFmul. repeat (split; [assumption || lia |]).
  assert (EV : (absQ mx ex * absQ my ey
                == inject_Z (Z.pos (mx * my)) * 2 ^ (ex + ey))%Q).
  { unfold absQ. rewrite Pos2Z.inj_mul, inject_Z_mult, Qpow2_add. ring. }
  rewrite EV, (absQ_shift m' e' (ex + ey) R4).
  pose proof (Qpow2_pos (ex + ey)) as HP.
  rewrite !Qmult_assoc.
  split; apply Qmult_le_compat_r; try assumption; apply Qlt_le_weak, HP.
Qed.

Lemma inject_Z_pos_lt (p : positive) : (0 < inject_Z (Z.pos p))%Q.
Proof. change 0%Q with (inject_Z 0). rewrite <- Zlt_Qlt. lia. Qed.

Lemma new_location_correct (b r qz : Z) :
  0 < b -> 0 <= r < b ->
  located qz (new_location b r) (inject_Z qz + inject_Z r / inject_Z b).
Proof.
  intros Hb Hr.
  assert (HB : (0 < inject_Z b)%Q)
    by (change 0%Q with (inject_Z 0); rewrite <- Zlt_Qlt; lia).
  set (x := (inject_Z r / inject_Z b)%Q).
  assert (C : forall c : Z, (c ?= b) = Lt -> (inject_Z c < inject_Z b)%Q)
    by (intros c Hc; rewrite <- Zlt_Qlt; apply Z.compare_lt_iff, Hc).
  assert (X0 : r <> 0 -> (0 < x)%Q).
  { intro Hn. subst x. apply Qlt_shift_div_l; [exact HB |].
    rewrite Qmult_0_l. change 0%Q with (inject_Z 0). rewrite <- Zlt_Qlt. lia. }
  assert (Xlt : 2 * r < b -> (x < 1 # 2)%Q).
  { intro H. subst x. apply Qlt_shift_div_r; [exact HB |].
    rewrite Zlt_Qlt, inject_Z_mult in H. change (inject_Z 2) with 2%Q in H. lra. }
  assert (Xgt : b < 2 * r -> ((1 # 2) < x)%Q).
  { intro H. subst x. apply Qlt_shift_div_l; [exact HB |].
    rewrite Zlt_Qlt, inject_Z_mult in H. change (inject_Z 2) with 2%Q in H. lra. }
  assert (Xeq : 2 * r = b -> (x == 1 # 2)%Q).
  { intro H. subst x. apply Qle_antisym.
    - apply Qle_shift_div_r; [exact HB |].
      rewrite <- H, inject_Z_mult. change (inject_Z 2) with 2%Q. lra.
    - apply Qle_shift_div_l; [exact HB |].
      rewrite <- H, inject_Z_mult. change (inject_Z 2) with 2%Q. lra. }
  assert (X1 : (x < 1)%Q).
  { subst x. apply Qlt_shift_div_r; [exact HB |].
    destruct Hr as [_ Hr]. rewrite Zlt_Qlt in Hr. lra. }
  unfold new_location, new_location_even, new_location_odd.
  destruct (Z.even b) eqn:Ev.
  - destruct (Z.eqb_spec r 0) as [E0 | N0].
    + cbn [located]. subst x. rewrite E0. change (inject_Z 0) with 0%Q.
      unfold Qdiv. ring.
    + specialize (X0 N0).
      destruct (Z.compare_spec (2 * r) b) as [E | E | E]; cbn [located].
      * specialize (Xeq E). lra.
      * specialize (Xlt E). lra.
      * specialize (Xgt E). lra.
  - destruct (Z.eqb_spec r 0) as [E0 | N0].
    + cbn [located]. subst x. rewrite E0. change (inject_Z 0) with 0%Q.
      unfold Qdiv. ring.
    + specialize (X0 N0).
      assert (Hodd : 2 * r <> b).
      { intro K. rewrite <- K, Z.even_mul in Ev. discriminate. }
      destruct (Z.compare_spec (2 * r + 1) b) as [E | E | E]; cbn [located].
      * assert (K : 2 * r < b) by lia. specialize (Xlt K). lra.
      * assert (K : 2 * r < b) by lia. specialize (Xlt K). lra.
      * assert (K : b < 2 * r) by lia. specialize (Xgt K). lra.
Qed.

Lemma shifted_mantissa (m : positive) (s : Z) :
  0 <= s ->
  match s with
  | Z.pos _ => Z.shiftl (Z.pos m) s
  | Z0 => Z.pos m
  | Z.neg _ => 0
  end = Z.pos m * 2 ^ s.
Proof.
  intro H. destruct s as [ | p | p]; [ | | lia].
  - rewrite Z.pow_0_r. lia.
  - apply Z.shiftl_mul_pow2. lia.
Qed.

(** Division of two finite numbers whose quotient is in the normal
    range: the result is the exact quotient up to a relative error of
    [2^-53]. *)
Lemma fdiv_correct (sx sy : bool) (mx my : positive) (ex ey : Z) :
  let magx := Z.pos (digits2_pos mx) + ex in
  let magy := Z.pos (digits2_pos my) + ey in
  -1021 <= magx - magy <= 1022 ->
  exists m' e',
    SFdiv prec emax (S754_finite sx mx ex) (S754_finite sy my ey)
    = S754_finite (xorb sx sy) m' e'
    /\ bounded prec emax m' e' = true
    /\ magx - magy <= Z.pos (digits2_pos m') + e' <= magx - magy + 2
    /\ ((1 - u) * (absQ mx ex / absQ my ey) <= absQ m' e'
        /\ absQ m' e' <= (1 + u) * (absQ mx ex / absQ my ey))%Q.
Proof.
  intros magx magy Hr. subst magx magy.
  pose proof (digits2_bounds mx) as [Lx Ux].
  pose proof (digits2_bounds my) as [Ly Uy].
  unfold SFdiv, SFdiv_core_binary. cbn [Zdigits2].
  set (dx := Z.pos (digits2_pos mx)) in *.
  set (dy := Z.pos (digits2_pos my)) in *.
  assert (Hdx : 0 < dx) by (subst dx; lia).
  assert (Hdy : 0 < dy) by (subst dy; lia).
  set (e1 := Z.min (fexp prec emax (dx + ex - (dy + ey))) (ex - ey)).
  set (s := ex - ey - e1).
  assert (He1 : e1 <= dx + ex - (dy + ey) - 53 /\ e1 <= ex - ey)
    by (subst e1; unfold fexp, emin, prec, emax; lia).
  assert (Hs : 0 <= s /\ 53 + dy - dx <= s) by (subst s; lia).
  rewrite (shifted_mantissa mx s) by lia.
  pose proof (Z_div_mod (Z.pos mx * 2 ^ s) (Z.pos my) eq_refl) as DM.
  destruct (Z.div_eucl (Z.pos mx * 2 ^ s) (Z.pos my)) as [q r].
  destruct DM as [DM Hrem].
  (* size of the quotient *)
  set (a := dx + s).
  assert (HPs : 0 < 2 ^ s) by (apply Z.pow_pos_nonneg; lia).
  assert (La : 2 ^ (a - 1) <= Z.pos mx * 2 ^ s < 2 ^ a).
  { subst a. replace (dx + s - 1) with (dx - 1 + s) by ring.
    rewrite !Z.pow_add_r by lia. split.
    - apply Z.mul_le_mono_nonneg_r; lia.
    - apply Z.mul_lt_mono_pos_r; lia. }
  assert (Hq : 2 ^ (a - dy - 1) <= q < 2 ^ (a - dy + 1)).
  { assert (P1 : 2 ^ (a - 1) = 2 ^ (a - dy - 1) * 2 ^ dy).
    { rewrite <- Z.pow_add_r by (subst a; lia). f_equal. ring. }
    assert (P2 : 2 ^ a = 2 ^ (a - dy + 1) * 2 ^ (dy - 1)).
    { rewrite <- Z.pow_add_r by (subst a; lia). f_equal. ring. }
    assert (0 < 2 ^ (a - dy - 1)) by (apply Z.pow_pos_nonneg; subst a; lia).
    assert (0 < 2 ^ (a - dy + 1)) by (apply Z.pow_pos_nonneg; subst a; lia).
    split; nia. }
  assert (Hq52 : 4503599627370496 <= 2 ^ (a - dy - 1)).
  { change 4503599627370496 with (2 ^ 52). apply Z.pow_le_mono_r; subst a; lia. }
  destruct q as [ | pq | pq]; [lia | | lia].
  assert (HDq : a - dy <= Z.pos (digits2_pos pq) <= a - dy + 1).
  { pose proof (digits2_bounds pq) as [Lq Uq].
    assert (K1 : 2 ^ (a - dy - 1) < 2 ^ Z.pos (digits2_pos pq)) by lia.
    assert (K2 : 2 ^ (Z.pos (digits2_pos pq) - 1) < 2 ^ (a - dy + 1)) by lia.
    apply pow2_lt_inv in K1; [ | lia]. apply pow2_lt_inv in K2; [ | subst a; lia].
    lia. }
  set (qv := (inject_Z (Z.pos pq) + inject_Z r / inject_Z (Z.pos my))%Q).
  destruct (round_aux_correct (xorb sx sy) pq e1 (new_location (Z.pos my) r) qv)
    as (m' & e' & R1 & R2 & R3 & R4 & R5 & R6).
  { subst a. lia. }
  { subst a s. lia. }
  { apply new_location_correct; lia. }
  exists m', e'. split; [exact R1 |]. split; [exact R2 |].
  split; [subst a s; lia |].
  pose proof (inject_Z_pos_lt my) as HMy.
  assert (EV : (absQ mx ex / absQ my ey == qv * 2 ^ e1)%Q).
  { unfold absQ, qv.
    assert (Eex : (2 ^ ex == inject_Z (2 ^ s) * 2 ^ e1 * 2 ^ ey)%Q).
    { replace ex with (s + e1 + ey) at 1 by (subst s; ring).
      rewrite !Qpow2_add, Qpow2_inject by lia. reflexivity. }
    assert (Em : (inject_Z (Z.pos mx) * inject_Z (2 ^ s)
                  == inject_Z (Z.pos my) * inject_Z (Z.pos pq) + inject_Z r)%Q)
      by (rewrite <- !inject_Z_mult, <- inject_Z_plus, DM; reflexivity).
    assert (Ny : ~ (2 ^ ey == 0)%Q).
    { pose proof (Qpow2_pos ey) as HPy. intro K. rewrite K in HPy.
      revert HPy. apply Qlt_irrefl. }
    assert (Nm : ~ (inject_Z (Z.pos my) == 0)%Q).
    { intro K. rewrite K in HMy. revert HMy. apply Qlt_irrefl. }
    rewrite Eex.
    transitivity ((inject_Z (Z.pos mx) * inject_Z (2 ^ s)) * 2 ^ e1
                  / inject_Z (Z.pos my))%Q.
    - field. auto.
    - rewrite Em. field. auto. }
  rewrite EV, (absQ_shift m' e' e1 R4).
  pose proof (Qpow2_pos e1) as HP.
  rewrite !Qmult_assoc.
  split; apply Qmult_le_compat_r; try assumption; apply Qlt_le_weak, HP.
Qed.

(** *** A binary64 number is determined by its value *)

Lemma Qpow2_le (a b : Z) : a <= b -> (2 ^ a <= 2 ^ b)%Q.
Proof.
  intro H. replace b with ((b - a) + a) by ring.
  rewrite Qpow2_add, (Qpow2_inject (b - a)) by lia.
  pose proof (Qpow2_pos a) as HP.
  assert (H1 : (1 <= inject_Z (2 ^ (b - a)))%Q).
  { change 1%Q with (inject_Z 1). rewrite <- Zle_Qle.
    assert (0 < 2 ^ (b - a)) by (apply Z.pow_pos_nonneg; lia). lia. }
  rewrite <- (Qmult_1_l (2 ^ a)) at 1.
  apply Qmult_le_compat_r; [exact H1 | apply Qlt_le_weak, HP].
Qed.

Lemma absQ_bounds (m : positive) (e : Z) :
  (2 ^ (Z.pos (digits2_pos m) + e - 1) <= absQ m e
   /\ absQ m e < 2 ^ (Z.pos (digits2_pos m) + e))%Q.
Proof.
  unfold absQ. pose proof (digits2_bounds m) as [L U].
  set (d := Z.pos (digits2_pos m)) in *.
  assert (Hd : 0 < d) by (subst d; lia).
  pose proof (Qpow2_pos e) as HP.
  replace (d + e - 1) with ((d - 1) + e) by ring.
  rewrite !Qpow2_add, (Qpow2_inject (d - 1)), (Qpow2_inject d) by lia.
  split.
  - apply Qmult_le_compat_r; [ | apply Qlt_le_weak, HP].
    rewrite <- Zle_Qle. exact L.
  - apply Qmult_lt_compat_r; [exact HP |].
    rewrite <- Zlt_Qlt. exact U.
Qed.

Lemma absQ_inj (m1 m2 : positive) (e1 e2 : Z) :
  bounded prec emax m1 e1 = true -> bounded prec emax m2 e2 = true ->
  (absQ m1 e1 == absQ m2 e2)%Q -> m1 = m2 /\ e1 = e2.
Proof.
  intros B1 B2 E.
  destruct (canonical_fexp m1 e1 B1) as [F1 _].
  destruct (canonical_fexp m2 e2 B2) as [F2 _].
  pose proof (absQ_bounds m1 e1) as [L1 U1].
  pose proof (absQ_bounds m2 e2) as [L2 U2].
  set (k1 := Z.pos (digits2_pos m1) + e1) in *.
  set (k2 := Z.pos (digits2_pos m2) + e2) in *.
  clearbody k1 k2.
  assert (Hk : k1 = k2).
  { destruct (Z.lt_trichotomy k1 k2) as [H | [H | H]]; [ | exact H | ]; exfalso.
    - assert (K : (2 ^ k1 <= 2 ^ (k2 - 1))%Q) by (apply Qpow2_le; lia).
      rewrite E in U1. lra.
    - assert (K : (2 ^ k2 <= 2 ^ (k1 - 1))%Q) by (apply Qpow2_le; lia).
      rewrite E in L1. lra. }
  assert (He : e1 = e2) by congruence.
  split; [ | exact He]. rewrite <- He in E.
  unfold absQ in E. pose proof (Qpow2_pos e1) as HP.
  assert (N : ~ (2 ^ e1 == 0)%Q).
  { intro K. rewrite K in HP. revert HP. apply Qlt_irrefl. }
  apply (proj1 (Qmult_inj_r _ _ _ N)) in E.
  apply (proj1 (inject_Z_injective _ _)) in E. congruence.
Qed.

Lemma to_Q_inj (s : bool) (m1 m2 : positive) (e1 e2 : Z) :
  bounded prec emax m1 e1 = true -> bounded prec emax m2 e2 = true ->
  (Double.to_Q (S754_finite s m1 e1) == Double.to_Q (S754_finite s m2 e2))%Q ->
  S754_finite s m1 e1 = S754_finite s m2 e2.
Proof.
  intros B1 B2 E.
  assert (E' : (absQ m1 e1 == absQ m2 e2)%Q).
  { destruct s; cbn [Double.to_Q] in E; lra. }
  destruct (absQ_inj m1 m2 e1 e2 B1 B2 E') as [-> ->]. reflexivity.
Qed.

(** Comparison of a number with itself. *)
Lemma feqb_refl (x : double) : feqb x x = negb (is_nan x).
Proof.
  unfold feqb, SFeqb, SFcompare.
  destruct x as [s | s | | s m e]; try destruct s; try reflexivity;
    rewrite Z.compare_refl, Pos.compare_cont_refl; reflexivity.
Qed.

(** *** Rounding at any magnitude *)

Lemma shr_m_of_loc (m : Z) (l : location) : shr_m (shr_record_of_loc m l) = m.
Proof. destruct l as [ | [ | | ]]; reflexivity. Qed.

Lemma Zdigits2_bounds (m : Z) :
  0 <= m ->
  0 <= Zdigits2 m /\ m < 2 ^ Zdigits2 m /\ (0 < m -> 2 ^ (Zdigits2 m - 1) <= m).
Proof.
  intro H. destruct m as [ | p | p]; [cbn; lia | | lia].
  cbn [Zdigits2]. pose proof (digits2_bounds p). lia.
Qed.

Lemma close_half (m2 q1 : Q) :
  (4503599627370496 <= m2)%Q -> (m2 - (1 # 2) <= q1)%Q -> (q1 <= m2 + (1 # 2))%Q ->
  close eps_op m2 q1.
Proof. intros H1 H2 H3. unfold close, eps_op. split; lra. Qed.

Lemma Qpow2_succ (f : Z) : (2 ^ (f + 1) == 2 * 2 ^ f)%Q.
Proof. rewrite Qpow2_add. change (2 ^ 1)%Q with 2%Q. ring. Qed.

(** Rounding a non-negative mantissa that has at least the bits its
    exponent asks for: the result is a valid number of the given sign,
    and when it is a normal number it is within [eps_op] of the exact
    value. *)
Lemma round_aux_general (s : bool) (mx ex : Z) (lx : location) (q : Q) :
  0 <= mx -> ex <= fexp prec emax (Zdigits2 mx + ex) -> located mx lx q ->
  let r := binary_round_aux prec emax s mx ex lx in
  r = S754_zero s \/ r = S754_infinity s
  \/ exists m' e',
       r = S754_finite s m' e'
       /\ bounded prec emax m' e' = true
       /\ (-1021 <= Z.pos (digits2_pos m') + e' ->
           close eps_op (absQ m' e') (q * 2 ^ ex)).
Proof.
  intros Hmx Hprec L r.
  destruct (Zdigits2_bounds mx Hmx) as (Hd0 & Hub & Hlb).
  set (d := Zdigits2 mx) in *.
  set (f := fexp prec emax (d + ex)) in *.
  assert (Hf : f = Z.max (d + ex - 53) (-1074)) by reflexivity.
  set (n := f - ex).
  assert (Hn : 0 <= n) by (subst n; lia).
  assert (HP : 0 < 2 ^ n) by (apply Z.pow_pos_nonneg; lia).
  destruct (shr_correct (shr_record_of_loc mx lx) ex n q Hn)
    as (mrs1 & Eshr & Em1 & Lq1).
  { rewrite shr_m_of_loc. exact Hmx. }
  { apply located_rec_of_loc, L. }
  rewrite shr_m_of_loc in Em1.
  replace (ex + n) with f in Eshr by (subst n; ring).
  unfold located_rec in Lq1.
  destruct (round_nearest_even_spec _ _ _ Lq1) as [Hm2 Hq2].
  set (m2 := round_nearest_even (shr_m mrs1) (loc_of_shr_record mrs1)) in *.
  set (q1 := (q / inject_Z (2 ^ n))%Q) in *.
  pose proof (inject_Z_pow2_pos n Hn) as HPq.
  assert (Eq1 : (q * 2 ^ ex == q1 * 2 ^ f)%Q).
  { replace f with (n + ex) by (subst n; ring).
    rewrite Qpow2_add, (Qpow2_inject n) by lia. subst q1. field.
    intro K. rewrite K in HPq. revert HPq. apply Qlt_irrefl. }
  assert (Hm1 : 0 <= shr_m mrs1) by (rewrite Em1; apply Z.div_pos; lia).
  (* size of the shifted mantissa *)
  assert (Hsize : (-1074 <= d + ex - 53 ->
                   4503599627370496 <= shr_m mrs1 < 9007199254740992)
                  /\ (d + ex - 53 < -1074 -> shr_m mrs1 < 4503599627370496)).
  { split; intro Hc.
    - assert (En : d = 53 + n) by (subst n; lia).
      assert (Hpow1 : 2 ^ (d - 1) = 4503599627370496 * 2 ^ n).
      { replace (d - 1) with (52 + n) by lia. rewrite Z.pow_add_r by lia. reflexivity. }
      assert (Hpow2 : 2 ^ d = 9007199254740992 * 2 ^ n).
      { rewrite En at 1. rewrite Z.pow_add_r by lia. reflexivity. }
      assert (0 < mx).
      { destruct (Z.eq_dec mx 0) as [E0 | E0]; [ | lia].
        assert (Ed0 : d = 0) by (subst d; rewrite E0; reflexivity). lia. }
      rewrite Em1. split.
      + apply Z.div_le_lower_bound; lia.
      + apply Z.div_lt_upper_bound; lia.
    - rewrite Em1. apply Z.div_lt_upper_bound; [lia |].
      apply Z.lt_le_trans with (1 := Hub).
      change 4503599627370496 with (2 ^ 52).
      rewrite Z.mul_comm, <- Z.pow_add_r by lia.
      apply Z.pow_le_mono_r; subst n; lia. }
  assert (Hres :
    r = S754_zero s \/ r = S754_infinity s
    \/ exists m' e',
         r = S754_finite s m' e'
         /\ bounded prec emax m' e' = true
         /\ (absQ m' e' == inject_Z m2 * 2 ^ f)%Q
         /\ (-1021 <= Z.pos (digits2_pos m') + e' -> 4503599627370496 <= m2)).
  { assert (Er : r = let '(mrs2, e2) := shr_fexp prec emax m2 f loc_Exact in
                     match shr_m mrs2 with
                     | 0 => S754_zero s
                     | Z.pos m => if e2 <=? emax - prec
                                  then S754_finite s m e2 else S754_infinity s
                     | Z.neg _ => S754_nan
                     end).
    { subst r. unfold binary_round_aux, shr_fexp at 1. fold d. fold f. fold n.
      rewrite Eshr. reflexivity. }
    clearbody r. subst r.
    destruct (Z.eq_dec m2 9007199254740992) as [Hc | Hc].
    - (* the mantissa was rounded up to 2^53 *)
      assert (E2 : shr_fexp prec emax m2 f loc_Exact
                   = (Build_shr_record 4503599627370496 false false, f + 1)).
      { rewrite Hc. unfold shr_fexp.
        change (Zdigits2 9007199254740992) with 54.
        replace (fexp prec emax (54 + f) - f) with 1
          by (unfold fexp, emin, prec, emax; lia).
        reflexivity. }
      rewrite E2. cbn [shr_m].
      destruct (f + 1 <=? emax - prec) eqn:Ov; [ | right; left; reflexivity].
      right; right. exists 4503599627370496%positive, (f + 1).
      split; [reflexivity |]. split.
      { unfold bounded, canonical_mantissa.
        change (Z.pos (digits2_pos 4503599627370496)) with 53.
        apply andb_true_iff. split; [ | exact Ov].
        apply Z.eqb_eq. unfold fexp, emin, prec, emax. lia. }
      split; [ | lia].
      unfold absQ. rewrite Qpow2_succ, Hc.
      change (inject_Z 9007199254740992) with (2 * inject_Z 4503599627370496)%Q.
      ring.
    - destruct m2 as [ | pm | pm] eqn:Epm; [ | | lia].
      + (* everything was shifted out and rounded down *)
        assert (Hs : d + ex - 53 < -1074) by lia.
        assert (E2 : shr_fexp prec emax 0 f loc_Exact
                     = (Build_shr_record 0 false false, f)).
        { unfold shr_fexp. cbn [Zdigits2].
          replace (fexp prec emax (0 + f) - f) with 0
            by (unfold fexp, emin, prec, emax; lia).
          reflexivity. }
        rewrite E2. left. reflexivity.
      + assert (Hdig : Z.pos (digits2_pos pm) <= 53
                       /\ (-1074 <= d + ex - 53 -> Z.pos (digits2_pos pm) = 53)).
        { split.
          - apply digits2_le. change (2 ^ 53) with 9007199254740992. lia.
          - intro Hc'. apply digits2_unique. cbn. lia. }
        assert (E2 : shr_fexp prec emax (Z.pos pm) f loc_Exact
                     = (Build_shr_record (Z.pos pm) false false, f)).
        { unfold shr_fexp. cbn [Zdigits2].
          replace (fexp prec emax (Z.pos (digits2_pos pm) + f) - f) with 0
            by (unfold fexp, emin, prec, emax; lia).
          reflexivity. }
        rewrite E2. cbn [shr_m].
        destruct (f <=? emax - prec) eqn:Ov; [ | right; left; reflexivity].
        right; right. exists pm, f.
        split; [reflexivity |]. split.
        { unfold bounded, canonical_mantissa.
          apply andb_true_iff. split; [ | exact Ov].
          apply Z.eqb_eq. unfold fexp, emin, prec, emax. lia. }
        split; [reflexivity |].
        intro Hnorm. pose proof (digits2_bounds pm) as [Lp _].
        assert (Hd53 : Z.pos (digits2_pos pm) = 53) by lia.
        rewrite Hd53 in Lp. exact Lp. }
  destruct Hres as [Z0 | [I0 | (m' & e' & R1 & R2 & R3 & R4)]];
    [left; exact Z0 | right; left; exact I0 | right; right].
  exists m', e'. split; [exact R1 |]. split; [exact R2 |].
  intro Hnorm. specialize (R4 Hnorm).
  assert (C : close eps_op (inject_Z m2) q1).
  { apply close_half; [ | lra | lra].
    change (4503599627370496 # 1)%Q with (inject_Z 4503599627370496).
    rewrite <- Zle_Qle. exact R4. }
  pose proof (Qpow2_pos f) as HPf.
  unfold close in *. rewrite R3, Eq1, !Qmult_assoc. destruct C as [C1 C2].
  split; apply Qmult_le_compat_r; try assumption; apply Qlt_le_weak, HPf.
Qed.

(** The product of two valid finite numbers, whatever its size. *)
Lemma fmul_general (sx sy : bool) (mx my : positive) (ex ey : Z) :
  bounded prec emax mx ex = true -> bounded prec emax my ey = true ->
  let r := fmul (S754_finite sx mx ex) (S754_finite sy my ey) in
  r = S754_zero (xorb sx sy) \/ r = S754_infinity (xorb sx sy)
  \/ exists m' e',
       r = S754_finite (xorb sx sy) m' e'
       /\ bounded prec emax m' e' = true
       /\ (-1021 <= Z.pos (digits2_pos m') + e' ->
           close eps_op (absQ m' e') (absQ mx ex * absQ my ey)).
Proof.
  intros Bx By r.
  destruct (bounded_digits mx ex Bx) as (Dx & Ex & Nx).
  destruct (bounded_digits my ey By) as (Dy & Ey & Ny).
  pose proof (digits2_mul mx my) as HD.
  pose proof (round_aux_general (xorb sx sy) (Z.pos (mx * my)) (ex + ey) loc_Exact
                (inject_Z (Z.pos (mx * my)))) as G.
  cbn [Zdigits2] in G.
  assert (EV : (inject_Z (Z.pos (mx * my)) * 2 ^ (ex + ey)
                == absQ mx ex * absQ my ey)%Q).
  { unfold absQ. rewrite Pos2Z.inj_mul, inject_Z_mult, Qpow2_add. ring. }
  destruct G as [G | [G | (m' & e' & G1 & G2 & G3)]];
    [lia | unfold fexp, emin, prec, emax; lia | reflexivity
     | left; exact G | right; left; exact G | right; right].
  exists m', e'. split; [exact G1 |]. split; [exact G2 |].
  intro Hn. specialize (G3 Hn). unfold close in *. rewrite <- EV. exact G3.
Qed.

(** The quotient of two finite numbers, whatever its size. *)
Lemma fdiv_general (sx sy : bool) (mx my : positive) (ex ey : Z) :
  let r := fdiv (S754_finite sx mx ex) (S754_finite sy my ey) in
  r = S754_zero (xorb sx sy) \/ r = S754_infinity (xorb sx sy)
  \/ exists m' e',
       r = S754_finite (xorb sx sy) m' e'
       /\ bounded prec emax m' e' = true
       /\ (-1021 <= Z.pos (digits2_pos m') + e' ->
           close eps_op (absQ m' e') (absQ mx ex / absQ my ey)).
Proof.
  intro r. subst r.
  pose proof (digits2_bounds mx) as [Lx Ux].
  pose proof (digits2_bounds my) as [Ly Uy].
  unfold fdiv, SFdiv, SFdiv_core_binary. cbn [Zdigits2].
  set (dx := Z.pos (digits2_pos mx)) in *.
  set (dy := Z.pos (digits2_pos my)) in *.
  assert (Hdx : 0 < dx) by (subst dx; lia).
  assert (Hdy : 0 < dy) by (subst dy; lia).
  set (t := dx + ex - (dy + ey)).
  set (e1 := Z.min (fexp prec emax t) (ex - ey)).
  set (s := ex - ey - e1).
  assert (He1 : e1 <= Z.max (t - 53) (-1074) /\ e1 <= ex - ey)
    by (subst e1; unfold fexp, emin, prec, emax; lia).
  assert (Hs : 0 <= s) by (subst s; lia).
  rewrite (shifted_mantissa mx s) by lia.
  pose proof (Z_div_mod (Z.pos mx * 2 ^ s) (Z.pos my) eq_refl) as DM.
  destruct (Z.div_eucl (Z.pos mx * 2 ^ s) (Z.pos my)) as [q r].
  destruct DM as [DM Hrem].
  set (a := dx + s).
  assert (HPs : 0 < 2 ^ s) by (apply Z.pow_pos_nonneg; lia).
  assert (La : 2 ^ (a - 1) <= Z.pos mx * 2 ^ s).
  { subst a. replace (dx + s - 1) with (dx - 1 + s) by ring.
    rewrite Z.pow_add_r by lia. apply Z.mul_le_mono_nonneg_r; lia. }
  assert (Hq0 : 0 <= q) by nia.
  (* the quotient has the bits its exponent asks for *)
  assert (Hprec : e1 <= fexp prec emax (Zdigits2 q + e1)).
  { destruct q as [ | pq | pq]; [ | | lia].
    - cbn [Zdigits2].
      assert (K : 2 ^ (a - 1) < 2 ^ dy) by lia.
      apply pow2_lt_inv in K; [ | lia].
      unfold fexp, emin, prec, emax. subst a s t. lia.
    - cbn [Zdigits2]. pose proof (digits2_bounds pq) as [_ Uq].
      set (dq := Z.pos (digits2_pos pq)) in *.
      assert (Hdq : a - dy <= dq).
      { destruct (Z_lt_le_dec (a - 1 - dy) 0) as [Hneg | Hpos]; [subst dq; lia |].
        assert (P1 : 2 ^ (a - 1) = 2 ^ (a - 1 - dy) * 2 ^ dy).
        { rewrite <- Z.pow_add_r by lia. f_equal. ring. }
        assert (0 < 2 ^ (a - 1 - dy)) by (apply Z.pow_pos_nonneg; lia).
        assert (K : 2 ^ (a - 1 - dy) < 2 ^ dq) by nia.
        apply pow2_lt_inv in K; [lia | subst dq; lia]. }
      unfold fexp, emin, prec, emax. subst a s t. lia. }
  set (qv := (inject_Z q + inject_Z r / inject_Z (Z.pos my))%Q).
  pose proof (round_aux_general (xorb sx sy) q e1 (new_location (Z.pos my) r) qv
                Hq0 Hprec) as G.
  pose proof (inject_Z_pos_lt my) as HMy.
  assert (EV : (absQ mx ex / absQ my ey == qv * 2 ^ e1)%Q).
  { unfold absQ, qv.
    assert (Eex : (2 ^ ex == inject_Z (2 ^ s) * 2 ^ e1 * 2 ^ ey)%Q).
    { replace ex with (s + e1 + ey) at 1 by (subst s; ring).
      rewrite !Qpow2_add, Qpow2_inject by lia. reflexivity. }
    assert (Em : (inject_Z (Z.pos mx) * inject_Z (2 ^ s)
                  == inject_Z (Z.pos my) * inject_Z q + inject_Z r)%Q)
      by (rewrite <- !inject_Z_mult, <- inject_Z_plus, DM; reflexivity).
    assert (Ny : ~ (2 ^ ey == 0)%Q).
    { pose proof (Qpow2_pos ey) as HPy. intro K. rewrite K in HPy.
      revert HPy. apply Qlt_irrefl. }
    assert (Nm : ~ (inject_Z (Z.pos my) == 0)%Q).
    { intro K. rewrite K in HMy. revert HMy. apply Qlt_irrefl. }
    rewrite Eex.
    transitivity ((inject_Z (Z.pos mx) * inject_Z (2 ^ s)) * 2 ^ e1
                  / inject_Z (Z.pos my))%Q.
    - field. auto.
    - rewrite Em. field. auto. }
  destruct G as [G | [G | (m' & e' & G1 & G2 & G3)]];
    [apply new_location_correct; lia
     | left; exact G | right; left; exact G | right; right].
  exists m', e'. split; [exact G1 |]. split; [exact G2 |].
  intro Hn. specialize (G3 Hn). unfold close in *. rewrite EV. exact G3.
Qed.

(** *** Every operation returns a double *)

Lemma fmul_is_double (x y : double) :
  is_double x = true -> is_double y = true -> is_double (fmul x y) = true.
Proof.
  destruct x as [sx | sx | | sx mx ex], y as [sy | sy | | sy my ey];
    try reflexivity.
  cbn [is_double valid_binary]. intros Bx By.
  destruct (fmul_general sx sy mx my ex ey Bx By)
    as [E | [E | (m' & e' & E & B & _)]]; rewrite E; try reflexivity.
  exact B.
Qed.

Lemma fdiv_is_double (x y : double) : is_double (fdiv x y) = true.
Proof.
  destruct x as [sx | sx | | sx mx ex], y as [sy | sy | | sy my ey];
    try reflexivity.
  destruct (fdiv_general sx sy mx my ex ey)
    as [E | [E | (m' & e' & E & B & _)]]; rewrite E; try reflexivity.
  exact B.
Qed.

(** Two valid numbers of the same value are the same number, unless the
    value is zero. *)
Lemma to_Q_inj_nonzero (x : double) (s : bool) (m : positive) (e : Z) :
  is_double x = true -> bounded prec emax m e = true ->
  (Double.to_Q x == Double.to_Q (S754_finite s m e))%Q ->
  x = S754_finite s m e.
Proof.
  intros Vx B E. pose proof (absQ_pos m e) as P.
  destruct x as [sx | sx | | sx mx ex].
  - destruct s; cbn [Double.to_Q] in E; lra.
  - destruct s; cbn [Double.to_Q] in E; lra.
  - destruct s; cbn [Double.to_Q] in E; lra.
  - pose proof (absQ_pos mx ex) as Px.
    assert (Es : sx = s).
    { destruct sx, s; cbn [Double.to_Q] in E; try reflexivity; lra. }
    subst sx. apply to_Q_inj; assumption.
Qed.

End DoubleFacts.

Import StdRatio Double DoubleFacts length.

(** ** The header's own tests *)

(** X1. Every [static_assert] at the end of the header holds in
    binary64 arithmetic. *)
Lemma static_asserts_hold : forallb (fun b => b) static_asserts = true.
Proof. vm_compute. reflexivity. Qed.

(** ** The identity conversion *)

Lemma ratio_divide_self (U : length_unit) :
  ratio_divide (ratio_of U) (ratio_of U) = {| num := 1; den := 1 |}.
Proof. destruct U; vm_compute; reflexivity. Qed.

Lemma is_same_refl (U : length_unit) : is_same U U = true.
Proof. destruct U; reflexivity. Qed.

Lemma is_same_eq (U1 U2 : length_unit) : is_same U1 U2 = true <-> U1 = U2.
Proof. destruct U1, U2; cbn; split; intro H; congruence. Qed.

Lemma convert_same (U : length_unit) (x : double) :
  is_double x = true -> value (convert U U (mkLength U x)) = x.
Proof.
  intro H. unfold convert. rewrite ratio_divide_self.
  cbn [value num den]. exact (fmul_fdiv_one x H).
Qed.

(** ** Conversion by an exact ratio: error and range *)

Lemma exact_const_inv (k : Z) :
  exact_const k = true ->
  exists m e,
    of_Z k = S754_finite false m e
    /\ Z.pos (digits2_pos m) = 53
    /\ 1 <= 53 + e <= 13
    /\ (absQ m e == inject_Z k)%Q.
Proof.
  unfold exact_const. destruct (of_Z k) as [ | | | [ | ] m e]; try discriminate.
  intro H. repeat (apply andb_true_iff in H; destruct H as [H ?]).
  exists m, e. split; [reflexivity |].
  apply Z.eqb_eq in H. apply Z.leb_le in H2, H1. apply Qeq_bool_iff in H0.
  repeat split; assumption.
Qed.

Lemma exact_const_pos (k : Z) : exact_const k = true -> (0 < inject_Z k)%Q.
Proof.
  intro H. destruct (exact_const_inv k H) as (m & e & _ & _ & _ & E).
  rewrite <- E. apply absQ_pos.
Qed.

Lemma ratio_consts (A B : length_unit) :
  exact_const (num (ratio_divide (ratio_of A) (ratio_of B))) = true
  /\ exact_const (den (ratio_divide (ratio_of A) (ratio_of B))) = true.
Proof. destruct A, B; vm_compute; split; reflexivity. Qed.

(** Multiplying by an exact constant. *)
Lemma mul_const (s : bool) (m : positive) (e k : Z) :
  exact_const k = true ->
  -1021 <= Z.pos (digits2_pos m) + e <= 1010 ->
  exists m' e',
    fmul (S754_finite s m e) (of_Z k) = S754_finite s m' e'
    /\ bounded prec emax m' e' = true
    /\ Z.pos (digits2_pos m) + e <= Z.pos (digits2_pos m') + e'
                               <= Z.pos (digits2_pos m) + e + 14
    /\ close u (absQ m' e') (absQ m e * inject_Z k).
Proof.
  intros Hk Hr. destruct (exact_const_inv k Hk) as (mk & ek & E & Dk & Mk & Vk).
  rewrite E.
  destruct (fmul_correct s false m mk e ek) as (m' & e' & R1 & R2 & R3 & R4);
    [lia | lia |].
  rewrite xorb_false_r in R1. exists m', e'.
  split; [exact R1 |]. split; [exact R2 |]. split; [lia |].
  unfold close. rewrite <- Vk. exact R4.
Qed.

(** Dividing by an exact constant. *)
Lemma div_const (s : bool) (m : positive) (e k : Z) :
  exact_const k = true ->
  -1008 <= Z.pos (digits2_pos m) + e <= 1023 ->
  exists m' e',
    fdiv (S754_finite s m e) (of_Z k) = S754_finite s m' e'
    /\ bounded prec emax m' e' = true
    /\ Z.pos (digits2_pos m) + e - 13 <= Z.pos (digits2_pos m') + e'
                                    <= Z.pos (digits2_pos m) + e + 1
    /\ close u (absQ m' e') (absQ m e / inject_Z k).
Proof.
  intros Hk Hr. destruct (exact_const_inv k Hk) as (mk & ek & E & Dk & Mk & Vk).
  rewrite E.
  destruct (fdiv_correct s false m mk e ek) as (m' & e' & R1 & R2 & R3 & R4);
    [lia |].
  rewrite xorb_false_r in R1. exists m', e'.
  split; [exact R1 |]. split; [exact R2 |]. split; [lia |].
  unfold close. rewrite <- Vk. exact R4.
Qed.

Lemma close_div (eps x v d : Q) :
  (0 < d)%Q -> close eps x v -> close eps (x / d) (v / d).
Proof.
  intros Hd [H1 H2]. unfold close, Qdiv. rewrite !Qmult_assoc.
  assert (Hi : (0 <= / d)%Q) by (apply Qlt_le_weak, Qinv_lt_0_compat, Hd).
  split; apply Qmult_le_compat_r; assumption.
Qed.

Lemma close_two (x y v : Q) :
  (0 <= v)%Q -> close u y v -> close u x y -> close eps_convert x v.
Proof. unfold close, u, eps_convert. intros Hv [A1 A2] [B1 B2]. split; lra. Qed.

Lemma close_four (x y v : Q) :
  (0 <= v)%Q -> close eps_convert y v -> close eps_convert x y -> close eps_roundtrip x v.
Proof. unfold close, eps_convert, eps_roundtrip. intros Hv [A1 A2] [B1 B2]. split; lra. Qed.

Lemma ratio_Q (r : ratio) :
  0 < den r -> (StdRatio.to_Q r == inject_Z (num r) / inject_Z (den r))%Q.
Proof.
  intro H. unfold StdRatio.to_Q. rewrite Qmake_Qdiv.
  rewrite Z2Pos.id by exact H. reflexivity.
Qed.

(** One conversion of a finite number in range. *)
Lemma convert_finite (From To : length_unit) (s : bool) (m : positive) (e : Z) :
  -1008 <= Z.pos (digits2_pos m) + e <= 1009 ->
  exists m' e',
    value (convert From To (mkLength From (S754_finite s m e)))
    = S754_finite s m' e'
    /\ bounded prec emax m' e' = true
    /\ Z.pos (digits2_pos m) + e - 13 <= Z.pos (digits2_pos m') + e'
                                    <= Z.pos (digits2_pos m) + e + 15
    /\ close eps_convert (absQ m' e')
         (absQ m e * StdRatio.to_Q (ratio_divide (ratio_of From) (ratio_of To))).
Proof.
  intro Hr. unfold convert. cbn [value].
  destruct (ratio_consts From To) as [Hn Hd].
  set (r := ratio_divide (ratio_of From) (ratio_of To)) in *. clearbody r.
  destruct (mul_const s m e (num r) Hn) as (m1 & e1 & E1 & B1 & M1 & C1); [lia |].
  rewrite E1.
  destruct (div_const s m1 e1 (den r) Hd) as (m2 & e2 & E2 & B2 & M2 & C2); [lia |].
  rewrite E2. exists m2, e2.
  split; [reflexivity |]. split; [exact B2 |]. split; [lia |].
  pose proof (exact_const_pos _ Hn) as Pn.
  pose proof (exact_const_pos _ Hd) as Pd.
  assert (Hden : 0 < den r).
  { change 0%Q with (inject_Z 0) in Pd. rewrite <- Zlt_Qlt in Pd. exact Pd. }
  apply (close_div _ _ _ _ Pd) in C1.
  assert (K : close eps_convert (absQ m2 e2)
                (absQ m e * inject_Z (num r) / inject_Z (den r))).
  { apply (close_two _ (absQ m1 e1 / inject_Z (den r))); try assumption.
    apply Qlt_le_weak. unfold Qdiv.
    apply Qmult_lt_0_compat; [apply Qmult_lt_0_compat |];
      [apply absQ_pos | exact Pn | apply Qinv_lt_0_compat, Pd]. }
  assert (EV : (absQ m e * StdRatio.to_Q r
                == absQ m e * inject_Z (num r) / inject_Z (den r))%Q).
  { rewrite (ratio_Q r Hden). unfold Qdiv. ring. }
  unfold close in K |- *. rewrite EV. exact K.
Qed.

Lemma close_mul (eps x v c : Q) :
  (0 <= c)%Q -> close eps x v -> close eps (x * c) (v * c).
Proof.
  intros Hc [H1 H2]. unfold close. rewrite !Qmult_assoc.
  split; apply Qmult_le_compat_r; assumption.
Qed.

Lemma close_eq (eps x v w : Q) : (v == w)%Q -> close eps x v -> close eps x w.
Proof. unfold close. intros E [H1 H2]. rewrite <- E. split; assumption. Qed.

Lemma ratio_inverse (A B : length_unit) :
  (StdRatio.to_Q (ratio_divide (ratio_of A) (ratio_of B))
   * StdRatio.to_Q (ratio_divide (ratio_of B) (ratio_of A)) == 1)%Q.
Proof. destruct A, B; reflexivity. Qed.

Lemma ratio_scale (A B : length_unit) :
  (StdRatio.to_Q (ratio_divide (ratio_of A) (ratio_of B)) * scaleQ B
   == scaleQ A)%Q.
Proof. destruct A, B; reflexivity. Qed.

Lemma ratio_positive (A B : length_unit) :
  (0 < StdRatio.to_Q (ratio_divide (ratio_of A) (ratio_of B)))%Q.
Proof. destruct A, B; reflexivity. Qed.

Lemma scaleQ_positive (U : length_unit) : (0 < scaleQ U)%Q.
Proof. destruct U; reflexivity. Qed.

(** The round trip of a finite number in range. *)
Lemma roundtrip_finite (A B : length_unit) (s : bool) (m : positive) (e : Z) :
  -995 <= Z.pos (digits2_pos m) + e <= 994 ->
  exists m' e',
    roundtrip A B (S754_finite s m e) = S754_finite s m' e'
    /\ bounded prec emax m' e' = true
    /\ close eps_roundtrip (absQ m' e') (absQ m e).
Proof.
  intro Hr. unfold roundtrip.
  destruct (convert_finite A B s m e) as (m1 & e1 & E1 & B1 & M1 & C1); [lia |].
  assert (E1' : convert A B (mkLength A (S754_finite s m e))
                = mkLength B (S754_finite s m1 e1)).
  { destruct (convert A B (mkLength A (S754_finite s m e))) as [v].
    cbn [value] in E1. rewrite E1. reflexivity. }
  rewrite E1'.
  destruct (convert_finite B A s m1 e1) as (m2 & e2 & E2 & B2 & M2 & C2); [lia |].
  exists m2, e2. split; [exact E2 |]. split; [exact B2 |].
  pose proof (ratio_positive B A) as Pc.
  apply (close_mul _ _ _ _ (Qlt_le_weak _ _ Pc)) in C1.
  apply (close_eq _ _ _ (absQ m e)) in C1.
  - apply (close_four _ _ _ (Qlt_le_weak _ _ (absQ_pos m e)) C1 C2).
  - rewrite <- Qmult_assoc, ratio_inverse. ring.
Qed.

Lemma close_abs (eps x v : Q) (s : bool) :
  (0 < v)%Q -> close eps x v ->
  (Qabs (sg s x - sg s v) <= eps * Qabs (sg s v))%Q.
Proof.
  intros Hv [H1 H2].
  assert (Ev : (Qabs (sg s v) == v)%Q).
  { destruct s; cbn [sg]; [rewrite Qabs_opp |]; apply Qabs_pos; lra. }
  assert (Ed : (Qabs (sg s x - sg s v) == Qabs (x - v))%Q).
  { destruct s; cbn [sg]; [ | reflexivity].
    rewrite <- (Qabs_opp (x - v)). apply Qabs_wd. ring. }
  rewrite Ev, Ed. apply Qabs_Qle_condition. split; lra.
Qed.

Lemma to_Q_finite (s : bool) (m : positive) (e : Z) :
  Double.to_Q (S754_finite s m e) = sg s (absQ m e).
Proof. destruct s; reflexivity. Qed.

Lemma sg_mul (s : bool) (q c : Q) : (sg s q * c == sg s (q * c))%Q.
Proof. destruct s; cbn [sg]; ring. Qed.

Lemma magnitude_bounds (x : double) (k : Z) :
  magnitude x = Some k ->
  (2 ^ (k - 1) <= Qabs (Double.to_Q x) /\ Qabs (Double.to_Q x) < 2 ^ k)%Q.
Proof.
  destruct x as [ | | | s m e]; try discriminate.
  intro H.
  assert (Hk : k = Z.pos (digits2_pos m) + e) by (unfold magnitude in H; congruence).
  subst k. rewrite to_Q_finite.
  assert (Ea : (Qabs (sg s (absQ m e)) == absQ m e)%Q).
  { pose proof (absQ_pos m e).
    destruct s; cbn [sg]; [rewrite Qabs_opp |]; apply Qabs_pos; lra. }
  rewrite Ea. exact (absQ_bounds m e).
Qed.

Lemma in_range_inv (lo hi : Z) (x : double) :
  in_range lo hi x = true ->
  exists s m e, x = S754_finite s m e /\ lo <= Z.pos (digits2_pos m) + e <= hi.
Proof.
  unfold in_range. destruct x as [ | | | s m e]; try discriminate.
  cbn [magnitude]. intro H. apply andb_true_iff in H. destruct H as [H1 H2].
  apply Z.leb_le in H1, H2. exists s, m, e. split; [reflexivity | lia].
Qed.

(** Zeros, infinities and NaN go through a conversion unchanged. *)
Lemma convert_special (From To : length_unit) (m : double) :
  magnitude m = None -> value (convert From To (mkLength From m)) = m.
Proof.
  intro H. unfold convert. cbn [value].
  destruct (ratio_consts From To) as [Hn Hd].
  destruct (exact_const_inv _ Hn) as (mn & en & En & _).
  destruct (exact_const_inv _ Hd) as (md & ed & Ed & _).
  rewrite En, Ed.
  destruct m as [s | s | | s m e]; try discriminate; try destruct s; reflexivity.
Qed.

Lemma ratio_reduced (A B : length_unit) :
  let r := ratio_divide (ratio_of A) (ratio_of B) in
  0 < num r /\ 0 < den r /\ Z.gcd (num r) (den r) = 1
  /\ (StdRatio.to_Q r == scaleQ A / scaleQ B)%Q.
Proof. destruct A, B; vm_compute; intuition congruence. Qed.

Lemma exact_const_to_Q (k : Z) :
  exact_const k = true -> (Double.to_Q (of_Z k) == inject_Z k)%Q.
Proof.
  intro H. destruct (exact_const_inv k H) as (m & e & E & _ & _ & V).
  rewrite E. exact V.
Qed.

(** With both operations exact, the value is scaled by the exact ratio. *)
Lemma converts_exactly_Q (From To : length_unit) (x : double) :
  converts_exactly From To x ->
  (Double.to_Q (value (convert From To (mkLength From x)))
   == Double.to_Q x * StdRatio.to_Q (ratio_divide (ratio_of From) (ratio_of To)))%Q.
Proof.
  unfold converts_exactly, convert. cbn [value]. intros [H1 H2].
  destruct (ratio_consts From To) as [_ Hd].
  pose proof (exact_const_pos _ Hd) as Pd.
  set (r := ratio_divide (ratio_of From) (ratio_of To)) in *. clearbody r.
  assert (Hden : 0 < den r).
  { change 0%Q with (inject_Z 0) in Pd. rewrite <- Zlt_Qlt in Pd. exact Pd. }
  rewrite H2, H1, (ratio_Q r Hden). unfold Qdiv. ring.
Qed.

(** ** Conversion without overflow or underflow *)

Lemma convert_is_double (From To : length_unit) (m : double) :
  is_double (value (convert From To (mkLength From m))) = true.
Proof. unfold convert. cbn [value]. apply fdiv_is_double. Qed.

Lemma close_two_op (x y v : Q) :
  (0 <= v)%Q -> close eps_op y v -> close eps_op x y -> close eps_convert x v.
Proof. unfold close, eps_op, eps_convert. intros Hv [A1 A2] [B1 B2]. split; lra. Qed.

Lemma close_exact (x v : Q) : (0 <= v)%Q -> (x == v)%Q -> close eps_op x v.
Proof. unfold close, eps_op. intros Hv E. split; lra. Qed.

Lemma sg_inj (s : bool) (a b : Q) : (sg s a == sg s b)%Q -> (a == b)%Q.
Proof. destruct s; cbn [sg]; intro H; lra. Qed.

Lemma sg_div (s : bool) (q c : Q) : (sg s q / c == sg s (q / c))%Q.
Proof. destruct s; cbn [sg]; unfold Qdiv; ring. Qed.

Lemma sg_nonzero (s : bool) (q : Q) : (0 < q)%Q -> ~ (0 == sg s q)%Q.
Proof. destruct s; cbn [sg]; intros H K; lra. Qed.

(** A 53-bit mantissa with a small exponent is a valid number. *)
Lemma exact_const_bounded (m : positive) (e : Z) :
  Z.pos (digits2_pos m) = 53 -> 1 <= 53 + e <= 13 ->
  bounded prec emax m e = true.
Proof.
  intros D M. unfold bounded, canonical_mantissa, fexp, emin, prec, emax.
  rewrite D. apply andb_true_iff. split; [apply Z.eqb_eq | apply Z.leb_le]; lia.
Qed.

(** A safe result of a rounded operation on positive magnitudes. *)
Lemma safe_result_close (s : bool) (r : double) (v : Q) :
  (0 < v)%Q ->
  (r = S754_zero s \/ r = S754_infinity s
   \/ exists m' e',
        r = S754_finite s m' e'
        /\ bounded prec emax m' e' = true
        /\ (-1021 <= Z.pos (digits2_pos m') + e' -> close eps_op (absQ m' e') v)) ->
  safe_result r (sg s v) ->
  exists m' e',
    r = S754_finite s m' e'
    /\ bounded prec emax m' e' = true
    /\ close eps_op (absQ m' e') v.
Proof.
  intros Pv [E | [E | (m' & e' & E & B & C)]] [N | [F X]]; subst r;
    try discriminate N; try discriminate F.
  - exfalso. cbn [Double.to_Q] in X. exact (sg_nonzero s v Pv X).
  - exists m', e'. split; [reflexivity |]. split; [exact B |].
    apply C. unfold is_normal in N. cbn [magnitude] in N.
    apply Z.leb_le in N. exact N.
  - exists m', e'. split; [reflexivity |]. split; [exact B |].
    rewrite to_Q_finite in X. apply sg_inj in X.
    apply close_exact; [apply Qlt_le_weak, Pv | exact X].
Qed.

(** Multiplying by an exact constant, at any magnitude. *)
Lemma mul_const_safe (s : bool) (m : positive) (e k : Z) :
  exact_const k = true -> bounded prec emax m e = true ->
  safe_result (fmul (S754_finite s m e) (of_Z k))
              (Double.to_Q (S754_finite s m e) * inject_Z k) ->
  exists m' e',
    fmul (S754_finite s m e) (of_Z k) = S754_finite s m' e'
    /\ bounded prec emax m' e' = true
    /\ close eps_op (absQ m' e') (absQ m e * inject_Z k).
Proof.
  intros Hk Bm Hs.
  destruct (exact_const_inv k Hk) as (mk & ek & E & Dk & Mk & Vk).
  pose proof (exact_const_pos k Hk) as Pk.
  pose proof (exact_const_bounded mk ek Dk Mk) as Bk.
  rewrite E in *.
  pose proof (fmul_general s false m mk e ek Bm Bk) as G.
  cbv zeta in G. rewrite xorb_false_r in G.
  apply (safe_result_close s _ (absQ m e * inject_Z k)).
  - apply Qmult_lt_0_compat; [apply absQ_pos | exact Pk].
  - destruct G as [G | [G | (m' & e' & G1 & G2 & G3)]]; auto.
    right; right. exists m', e'. split; [exact G1 |]. split; [exact G2 |].
    intro Hn. apply (close_eq _ _ _ _ (Qmult_comp _ _ (Qeq_refl _) _ _ Vk)), G3, Hn.
  - destruct Hs as [N | [F X]]; [left; exact N | right; split; [exact F |]].
    rewrite X, to_Q_finite, sg_mul. reflexivity.
Qed.

(** Dividing by an exact constant, at any magnitude. *)
Lemma div_const_safe (s : bool) (m : positive) (e k : Z) :
  exact_const k = true ->
  safe_result (fdiv (S754_finite s m e) (of_Z k))
              (Double.to_Q (S754_finite s m e) / inject_Z k) ->
  exists m' e',
    fdiv (S754_finite s m e) (of_Z k) = S754_finite s m' e'
    /\ bounded prec emax m' e' = true
    /\ close eps_op (absQ m' e') (absQ m e / inject_Z k).
Proof.
  intros Hk Hs.
  destruct (exact_const_inv k Hk) as (mk & ek & E & Dk & Mk & Vk).
  pose proof (exact_const_pos k Hk) as Pk.
  rewrite E in *.
  pose proof (fdiv_general s false m mk e ek) as G.
  cbv zeta in G. rewrite xorb_false_r in G.
  apply (safe_result_close s _ (absQ m e / inject_Z k)).
  - unfold Qdiv. apply Qmult_lt_0_compat;
      [apply absQ_pos | apply Qinv_lt_0_compat, Pk].
  - destruct G as [G | [G | (m' & e' & G1 & G2 & G3)]]; auto.
    right; right. exists m', e'. split; [exact G1 |]. split; [exact G2 |].
    intro Hn. specialize (G3 Hn). unfold close in *. rewrite <- Vk. exact G3.
  - destruct Hs as [N | [F X]]; [left; exact N | right; split; [exact F |]].
    rewrite X, to_Q_finite, sg_div. reflexivity.
Qed.

(** Only a finite number converts without overflow. *)
Lemma converts_safely_finite (From To : length_unit) (x : double) :
  converts_safely From To x -> is_finite x = true.
Proof.
  unfold converts_safely.
  destruct (ratio_consts From To) as [Hn _].
  destruct (exact_const_inv _ Hn) as (mn & en & En & _).
  rewrite En. intros [[N | [F _]] _]; revert N || revert F;
    destruct x as [s | s | | s m e]; try destruct s; try reflexivity;
    discriminate.
Qed.

(** One conversion of a finite non-zero number when neither operation
    overflows or underflows. *)
Lemma convert_safe (From To : length_unit) (s : bool) (m : positive) (e : Z) :
  bounded prec emax m e = true ->
  converts_safely From To (S754_finite s m e) ->
  exists m' e',
    value (convert From To (mkLength From (S754_finite s m e)))
    = S754_finite s m' e'
    /\ bounded prec emax m' e' = true
    /\ close eps_convert (absQ m' e')
         (absQ m e * StdRatio.to_Q (ratio_divide (ratio_of From) (ratio_of To))).
Proof.
  intros Bm Hs. unfold converts_safely, convert in *. cbn [value].
  destruct (ratio_consts From To) as [Hnum Hden].
  set (r := ratio_divide (ratio_of From) (ratio_of To)) in *. clearbody r.
  cbv zeta in Hs. destruct Hs as [S1 S2].
  destruct (mul_const_safe s m e (num r) Hnum Bm S1) as (m1 & e1 & E1 & B1 & C1).
  rewrite E1 in *.
  destruct (div_const_safe s m1 e1 (den r) Hden S2) as (m2 & e2 & E2 & B2 & C2).
  rewrite E2. exists m2, e2. split; [reflexivity |]. split; [exact B2 |].
  pose proof (exact_const_pos _ Hnum) as Pn.
  pose proof (exact_const_pos _ Hden) as Pd.
  assert (Hd0 : 0 < den r).
  { change 0%Q with (inject_Z 0) in Pd. rewrite <- Zlt_Qlt in Pd. exact Pd. }
  apply (close_div _ _ _ _ Pd) in C1.
  assert (K : close eps_convert (absQ m2 e2)
                (absQ m e * inject_Z (num r) / inject_Z (den r))).
  { apply (close_two_op _ (absQ m1 e1 / inject_Z (den r))); try assumption.
    apply Qlt_le_weak. unfold Qdiv.
    apply Qmult_lt_0_compat; [apply Qmult_lt_0_compat |];
      [apply absQ_pos | exact Pn | apply Qinv_lt_0_compat, Pd]. }
  assert (EV : (absQ m e * StdRatio.to_Q r
                == absQ m e * inject_Z (num r) / inject_Z (den r))%Q).
  { rewrite (ratio_Q r Hd0). unfold Qdiv. ring. }
  unfold close in K |- *. rewrite EV. exact K.
Qed.

(** A number in the range of [convert_finite] converts without overflow
    or underflow. *)
Lemma in_range_safely (From To : length_unit) (s : bool) (m : positive) (e : Z) :
  -1008 <= Z.pos (digits2_pos m) + e <= 1009 ->
  converts_safely From To (S754_finite s m e).
Proof.
  intro Hr. unfold converts_safely.
  destruct (ratio_consts From To) as [Hn Hd].
  set (r := ratio_divide (ratio_of From) (ratio_of To)) in *. clearbody r.
  cbv zeta.
  destruct (mul_const s m e (num r) Hn) as (m1 & e1 & E1 & B1 & M1 & C1); [lia |].
  rewrite E1.
  destruct (div_const s m1 e1 (den r) Hd) as (m2 & e2 & E2 & B2 & M2 & C2); [lia |].
  rewrite E2. unfold safe_result, is_normal. cbn [magnitude].
  split; left; apply Z.leb_le; lia.
Qed.

(** The error bound holds trivially between zeros. *)
Lemma bound_zero (eps a b : Q) :
  (a == 0)%Q -> (b == 0)%Q -> (Qabs (a - b) <= eps * Qabs b)%Q.
Proof.
  intros Ea Eb. rewrite Ea, Eb.
  change (Qabs (0 - 0)) with 0%Q. change (Qabs 0) with 0%Q. lra.
Qed.

(** Zeros, infinities and NaN come back unchanged. *)
Lemma roundtrip_special (A B : length_unit) (m : double) :
  magnitude m = None -> roundtrip A B m = m.
Proof.
  intro H. unfold roundtrip.
  assert (E : convert A B (mkLength A m) = mkLength B m).
  { pose proof (convert_special A B m H) as K.
    destruct (convert A B (mkLength A m)) as [v]. cbn [value] in K.
    rewrite K. reflexivity. }
  rewrite E. exact (convert_special B A m H).
Qed.

(** A round trip in which no operation rounds returns its argument. *)
Lemma roundtrip_exact (A B : length_unit) (m : double) :
  is_double m = true ->
  converts_exactly A B m ->
  converts_exactly B A (value (convert A B (mkLength A m))) ->
  roundtrip A B m = m.
Proof.
  intros Vm X1 X2.
  destruct m as [s | s | | s mm e];
    try (apply roundtrip_special; reflexivity).
  apply to_Q_inj_nonzero; [apply convert_is_double | exact Vm |].
  unfold roundtrip.
  assert (Ey : convert A B (mkLength A (S754_finite s mm e))
               = mkLength B (value (convert A B (mkLength A (S754_finite s mm e)))))
    by (destruct (convert A B (mkLength A (S754_finite s mm e))); reflexivity).
  rewrite Ey, (converts_exactly_Q B A _ X2), (converts_exactly_Q A B _ X1).
  rewrite <- Qmult_assoc, ratio_inverse. ring.
Qed.

(** The round trip of a finite non-zero number when none of its four
    operations overflows or underflows. *)
Lemma roundtrip_safe (A B : length_unit) (s : bool) (m : positive) (e : Z) :
  bounded prec emax m e = true ->
  converts_safely A B (S754_finite s m e) ->
  converts_safely B A (value (convert A B (mkLength A (S754_finite s m e)))) ->
  exists m' e',
    roundtrip A B (S754_finite s m e) = S754_finite s m' e'
    /\ bounded prec emax m' e' = true
    /\ close eps_roundtrip (absQ m' e') (absQ m e).
Proof.
  intros Bm N1 N2. unfold roundtrip.
  destruct (convert_safe A B s m e Bm N1) as (m1 & e1 & E1 & B1 & C1).
  assert (E1' : convert A B (mkLength A (S754_finite s m e))
                = mkLength B (S754_finite s m1 e1)).
  { destruct (convert A B (mkLength A (S754_finite s m e))) as [v].
    cbn [value] in E1. rewrite E1. reflexivity. }
  rewrite E1' in *. cbn [value] in N2.
  destruct (convert_safe B A s m1 e1 B1 N2) as (m2 & e2 & E2 & B2 & C2).
  exists m2, e2. split; [exact E2 |]. split; [exact B2 |].
  pose proof (ratio_positive B A) as Pc.
  apply (close_mul _ _ _ _ (Qlt_le_weak _ _ Pc)) in C1.
  apply (close_eq _ _ _ (absQ m e)) in C1.
  - apply (close_four _ _ _ (Qlt_le_weak _ _ (absQ_pos m e)) C1 C2).
  - rewrite <- Qmult_assoc, ratio_inverse. ring.
Qed.

(** ** The unit registry *)

(** C2. The registry has exactly the five tags metre, centimetre,
    millimetre, inch and foot; their scales in metres are the exact
    positive rationals 1, 1/100, 1/1000, 254/10000 and
    12 * 254/10000 = 3048/10000, which [std::ratio] keeps in lowest
    terms as 1/1, 1/100, 1/1000, 127/5000 and 381/1250. *)
Theorem registry_scales :
  (forall u : length_unit, In u registry)
  /\ NoDup registry
  /\ List.length registry = 5%nat
  /\ ratio_of metre = {| num := 1; den := 1 |}
  /\ ratio_of centimetre = {| num := 1; den := 100 |}
  /\ ratio_of millimetre = {| num := 1; den := 1000 |}
  /\ ratio_of inch = {| num := 127; den := 5000 |}
  /\ ratio_of foot = {| num := 381; den := 1250 |}
  /\ (StdRatio.to_Q (ratio_of metre) == 1)%Q
  /\ (StdRatio.to_Q (ratio_of centimetre) == 1 # 100)%Q
  /\ (StdRatio.to_Q (ratio_of millimetre) == 1 # 1000)%Q
  /\ (StdRatio.to_Q (ratio_of inch) == 254 # 10000)%Q
  /\ (StdRatio.to_Q (ratio_of foot) == 12 * (254 # 10000))%Q
  /\ (StdRatio.to_Q (ratio_of foot) == 3048 # 10000)%Q
  /\ (forall u : length_unit,
        0 < num (ratio_of u) /\ 0 < den (ratio_of u)
        /\ Z.gcd (num (ratio_of u)) (den (ratio_of u)) = 1
        /\ (0 < StdRatio.to_Q (ratio_of u))%Q).
Proof.
  split; [intro u; destruct u; cbn; tauto |].
  split; [repeat constructor; cbn; intuition congruence |].
  repeat (split; [reflexivity |]).
  intro u; destruct u; vm_compute; intuition congruence.
Qed.

(** ** Conversion *)

(** C1 (as amended). For all units [From], [To] and every double [m],
    [convert<From,To>(Length<From>{m})] has the magnitude
    [m * double(num) / double(den)], one multiplication followed by one
    division, where [num/den] is the exact ratio [From.scale / To.scale]
    in lowest terms and both casts are exact; the result is a double.
    A zero, an infinity or NaN is returned unchanged.  The result equals
    the input in canonical metres exactly when neither operation rounds;
    and whenever neither the product nor the quotient overflows or
    underflows it is finite and within a relative error of [3 * 2^-53]
    of the input in canonical metres, which is so for every finite [m]
    of binary magnitude between -1008 and 1009. *)
Theorem convert_spec (From To : length_unit) (m : double) :
  let r := ratio_divide (ratio_of From) (ratio_of To) in
  let y := convert From To (mkLength From m) in
  value y = fdiv (fmul m (of_Z (num r))) (of_Z (den r))
  /\ (0 < num r /\ 0 < den r /\ Z.gcd (num r) (den r) = 1
      /\ (StdRatio.to_Q r == scaleQ From / scaleQ To)%Q)
  /\ ((Double.to_Q (of_Z (num r)) == inject_Z (num r))%Q
      /\ (Double.to_Q (of_Z (den r)) == inject_Z (den r))%Q)
  /\ is_double (value y) = true
  /\ (magnitude m = None -> value y = m)
  /\ (converts_exactly From To m -> (metres y == metres (mkLength From m))%Q)
  /\ (is_double m = true -> converts_safely From To m ->
      is_finite (value y) = true
      /\ (Qabs (metres y - metres (mkLength From m))
          <= eps_convert * Qabs (metres (mkLength From m)))%Q)
  /\ (in_range (-1008) 1009 m = true ->
      converts_safely From To m
      /\ is_finite (value y) = true
      /\ (Qabs (metres y - metres (mkLength From m))
          <= eps_convert * Qabs (metres (mkLength From m)))%Q).
Proof.
  intros r y. split; [reflexivity |].
  split; [exact (ratio_reduced From To) |].
  destruct (ratio_consts From To) as [Hn Hd].
  split; [split; apply exact_const_to_Q; assumption |].
  split; [exact (convert_is_double From To m) |].
  split; [exact (convert_special From To m) |].
  split.
  { intro Hx. unfold metres. subst y. cbn [value].
    rewrite (converts_exactly_Q From To m Hx), <- Qmult_assoc, ratio_scale.
    reflexivity. }
  assert (G : forall s mm e m' e',
             value (convert From To (mkLength From (S754_finite s mm e)))
             = S754_finite s m' e' ->
             close eps_convert (absQ m' e')
               (absQ mm e * StdRatio.to_Q (ratio_divide (ratio_of From) (ratio_of To))) ->
             is_finite (value (convert From To (mkLength From (S754_finite s mm e)))) = true
             /\ (Qabs (metres (convert From To (mkLength From (S754_finite s mm e)))
                       - metres (mkLength From (S754_finite s mm e)))
                 <= eps_convert * Qabs (metres (mkLength From (S754_finite s mm e))))%Q).
  { intros s mm e m' e' E C. unfold metres. rewrite E. cbn [value].
    split; [reflexivity |].
    rewrite !to_Q_finite, !sg_mul.
    pose proof (scaleQ_positive To) as PT.
    apply (close_mul _ _ _ _ (Qlt_le_weak _ _ PT)) in C.
    apply (close_eq _ _ _ (absQ mm e * scaleQ From)) in C.
    - apply close_abs; [ | exact C].
      apply Qmult_lt_0_compat; [apply absQ_pos | apply scaleQ_positive].
    - rewrite <- Qmult_assoc, ratio_scale. reflexivity. }
  split.
  - intros Vm Hs. subst y.
    pose proof (converts_safely_finite From To m Hs) as Fm.
    destruct m as [s | s | | s mm e]; try discriminate Fm.
    + unfold metres.
      rewrite (convert_special From To (S754_zero s) eq_refl).
      cbn [value Double.to_Q]. split; [reflexivity |].
      apply bound_zero; ring.
    + destruct (convert_safe From To s mm e Vm Hs) as (m' & e' & E & _ & C).
      exact (G s mm e m' e' E C).
  - intro Hr. destruct (in_range_inv _ _ _ Hr) as (s & mm & e & -> & Hmag).
    split; [exact (in_range_safely From To s mm e Hmag) |].
    destruct (convert_finite From To s mm e Hmag) as (m' & e' & E & _ & _ & C).
    subst y. exact (G s mm e m' e' E C).
Qed.

(** Instances: NaN, 1 m to centimetres, [2^1015] m to centimetres, the
    smallest positive double from metres to centimetres, and 1 m to
    inches. *)
Lemma convert_spec_witness :
  value (convert metre inch (mkLength metre nan)) = nan
  /\ (metres (convert metre centimetre (mkLength metre (of_Z 1)))
      == metres (mkLength metre (of_Z 1)))%Q
  /\ is_finite (value (convert metre centimetre
                         (mkLength metre (S754_finite false 4503599627370496 963))))
     = true
  /\ is_finite (value (convert metre centimetre
                         (mkLength metre (S754_finite false 1 (-1074)))))
     = true
  /\ converts_safely metre inch (of_Z 1).
Proof.
  split; [ | split; [ | split; [ | split]]].
  - apply (proj1 (proj2 (proj2 (proj2 (proj2 (convert_spec metre inch nan)))))).
    reflexivity.
  - apply (proj1 (proj2 (proj2 (proj2 (proj2 (proj2
             (convert_spec metre centimetre (of_Z 1)))))))).
    split; vm_compute; reflexivity.
  - apply (proj1 (proj2 (proj2 (proj2 (proj2 (proj2 (proj2
             (convert_spec metre centimetre
                (S754_finite false 4503599627370496 963))))))))).
    + reflexivity.
    + split; left; reflexivity.
  - apply (proj1 (proj2 (proj2 (proj2 (proj2 (proj2 (proj2
             (convert_spec metre centimetre
                (S754_finite false 1 (-1074)))))))))).
    + reflexivity.
    + split; right; (split; [reflexivity | vm_compute; reflexivity]).
  - apply (proj2 (proj2 (proj2 (proj2 (proj2 (proj2 (proj2
             (convert_spec metre inch (of_Z 1))))))))).
    reflexivity.
Defined.

(** C1 as stated fails: a conversion does not keep the canonical-metre
    value up to rounding for every double.  [1e308] ft is a finite double
    whose value in metres, [3.048e307], lies below the largest double,
    yet its product by 381 overflows and the result is [+infinity];
    the negative double closest to zero, in inches, underflows to
    [-0] m, a relative error of 1; and [2^-1022] in comes out as a
    subnormal number of metres, off by more than [3 * 2^-53]. *)
Lemma convert_counterexample :
  ~ (forall (From To : length_unit) (m : double),
        is_double m = true -> is_finite m = true ->
        is_finite (value (convert From To (mkLength From m))) = true
        /\ (Qabs (metres (convert From To (mkLength From m))
                  - metres (mkLength From m))
            <= eps_convert * Qabs (metres (mkLength From m)))%Q)
  /\ ~ (exists eps : Q,
          (eps < 1)%Q
          /\ forall (From To : length_unit) (m : double),
               is_double m = true -> is_finite m = true ->
               (Qabs (metres (convert From To (mkLength From m))
                      - metres (mkLength From m))
                <= eps * Qabs (metres (mkLength From m)))%Q)
  /\ ratio_divide (ratio_of foot) (ratio_of metre) = {| num := 381; den := 1250 |}
  /\ is_double (of_Z (10 ^ 308)) = true
  /\ is_finite (of_Z (10 ^ 308)) = true
  /\ (metres (mkLength foot (of_Z (10 ^ 308)))
      < Double.to_Q (S754_finite false 9007199254740991 971))%Q
  /\ fmul (of_Z (10 ^ 308)) (of_Z 381) = pinf
  /\ value (convert foot metre (mkLength foot (of_Z (10 ^ 308)))) = pinf
  /\ ratio_divide (ratio_of inch) (ratio_of metre) = {| num := 127; den := 5000 |}
  /\ is_double (S754_finite true 1 (-1074)) = true
  /\ value (convert inch metre (mkLength inch (S754_finite true 1 (-1074)))) = nzero
  /\ is_double (S754_finite false 4503599627370496 (-1074)) = true
  /\ value (convert inch metre
              (mkLength inch (S754_finite false 4503599627370496 (-1074))))
     = S754_finite false 114391430535211 (-1074)
  /\ ~ (Qabs (metres (convert inch metre
                        (mkLength inch (S754_finite false 4503599627370496 (-1074))))
              - metres (mkLength inch (S754_finite false 4503599627370496 (-1074))))
        <= eps_convert
           * Qabs (metres (mkLength inch (S754_finite false 4503599627370496 (-1074)))))%Q.
Proof.
  assert (Z1 : (metres (convert inch metre (mkLength inch (S754_finite true 1 (-1074))))
                == 0)%Q) by (vm_compute; reflexivity).
  assert (P1 : (0 < Qabs (metres (mkLength inch (S754_finite true 1 (-1074)))))%Q)
    by (vm_compute; reflexivity).
  split; [ | split].
  - intro H. destruct (H foot metre (of_Z (10 ^ 308)) eq_refl eq_refl) as [K _].
    vm_compute in K. discriminate K.
  - intros (eps & He & H).
    specialize (H inch metre (S754_finite true 1 (-1074)) eq_refl eq_refl).
    set (v := metres (mkLength inch (S754_finite true 1 (-1074)))) in *.
    assert (E : (Qabs (metres (convert inch metre
                                 (mkLength inch (S754_finite true 1 (-1074)))) - v)
                 == Qabs v)%Q).
    { rewrite Z1. rewrite <- (Qabs_opp v). apply Qabs_wd. ring. }
    rewrite E in H. nra.
  - repeat (split; [vm_compute; reflexivity |]).
    intro H. vm_compute in H. apply H. reflexivity.
Qed.

(** C6 (as amended). For all units [A], [B] and doubles [m], the round
    trip [convert<B,A>(convert<A,B>(Length<A>{m})).value()] is [m] itself
    when [A = B], when [m] is a zero, an infinity or NaN, and when none
    of the four operations of the two conversions rounds, as for 1 m
    through centimetres; and whenever none of the four operations
    overflows or underflows it is a finite double within a relative
    error of [2^-50] of [m], which is so for every finite [m] of binary
    magnitude between -995 and 994. *)
Theorem roundtrip_spec (A B : length_unit) (m : double) :
  (is_double m = true -> A = B -> roundtrip A B m = m)
  /\ (magnitude m = None -> roundtrip A B m = m)
  /\ (is_double m = true ->
      converts_exactly A B m ->
      converts_exactly B A (value (convert A B (mkLength A m))) ->
      roundtrip A B m = m)
  /\ (is_double m = true ->
      converts_safely A B m ->
      converts_safely B A (value (convert A B (mkLength A m))) ->
      is_double (roundtrip A B m) = true
      /\ is_finite (roundtrip A B m) = true
      /\ (Qabs (Double.to_Q (roundtrip A B m) - Double.to_Q m)
          <= eps_roundtrip * Qabs (Double.to_Q m))%Q)
  /\ (in_range (-995) 994 m = true ->
      converts_safely A B m
      /\ converts_safely B A (value (convert A B (mkLength A m)))
      /\ is_double (roundtrip A B m) = true
      /\ is_finite (roundtrip A B m) = true
      /\ (Qabs (Double.to_Q (roundtrip A B m) - Double.to_Q m)
          <= eps_roundtrip * Qabs (Double.to_Q m))%Q)
  /\ roundtrip metre centimetre (of_Z 1) = of_Z 1.
Proof.
  split; [ | split; [ | split; [ | split; [ | split]]]].
  - intros Hd <-. unfold roundtrip.
    assert (E : convert A A (mkLength A m) = mkLength A m).
    { pose proof (convert_same A m Hd) as K.
      destruct (convert A A (mkLength A m)) as [v]. cbn [value] in K.
      rewrite K. reflexivity. }
    rewrite E. exact (convert_same A m Hd).
  - exact (roundtrip_special A B m).
  - exact (roundtrip_exact A B m).
  - intros Vm N1 N2.
    pose proof (converts_safely_finite A B m N1) as Fm.
    destruct m as [s | s | | s mm e]; try discriminate Fm.
    + rewrite (roundtrip_special A B (S754_zero s) eq_refl).
      split; [reflexivity |]. split; [reflexivity |].
      apply bound_zero; reflexivity.
    + destruct (roundtrip_safe A B s mm e Vm N1 N2) as (m' & e' & E & Bd & C).
      split; [rewrite E; exact Bd |]. split; [rewrite E; reflexivity |].
      rewrite E, !to_Q_finite. apply close_abs; [apply absQ_pos | exact C].
  - intro Hr. destruct (in_range_inv _ _ _ Hr) as (s & mm & e & -> & Hmag).
    split; [apply in_range_safely; lia |].
    split.
    { destruct (convert_finite A B s mm e) as (m1 & e1 & E1 & _ & M1 & _); [lia |].
      rewrite E1. apply in_range_safely. lia. }
    destruct (roundtrip_finite A B s mm e Hmag) as (m' & e' & E & Bd & C).
    split; [rewrite E; exact Bd |]. split; [rewrite E; reflexivity |].
    rewrite E, !to_Q_finite. apply close_abs; [apply absQ_pos | exact C].
  - vm_compute. reflexivity.
Qed.

(** Instances: -0 ft, an infinite length, the smallest positive double
    and [2^1000], in metres through centimetres, 7 cm through metres and
    3 m through millimetres. *)
Lemma roundtrip_spec_witness :
  roundtrip foot foot nzero = nzero
  /\ roundtrip metre inch pinf = pinf
  /\ roundtrip metre centimetre (S754_finite false 1 (-1074))
     = S754_finite false 1 (-1074)
  /\ roundtrip metre centimetre (S754_finite false 4503599627370496 948)
     = S754_finite false 4503599627370496 948
  /\ is_finite (roundtrip centimetre metre (of_Z 7)) = true
  /\ converts_safely metre millimetre (of_Z 3).
Proof.
  split; [ | split; [ | split; [ | split; [ | split]]]].
  - apply (proj1 (roundtrip_spec foot foot nzero)); reflexivity.
  - apply (proj1 (proj2 (roundtrip_spec metre inch pinf))). reflexivity.
  - apply (proj1 (proj2 (proj2
             (roundtrip_spec metre centimetre (S754_finite false 1 (-1074)))))).
    + reflexivity.
    + split; vm_compute; reflexivity.
    + split; vm_compute; reflexivity.
  - apply (proj1 (proj2 (proj2
             (roundtrip_spec metre centimetre
                (S754_finite false 4503599627370496 948))))).
    + reflexivity.
    + split; vm_compute; reflexivity.
    + split; vm_compute; reflexivity.
  - apply (proj1 (proj2 (proj2 (proj2 (roundtrip_spec centimetre metre (of_Z 7)))))).
    + reflexivity.
    + split; left; reflexivity.
    + split; left; reflexivity.
  - apply (proj1 (proj2 (proj2 (proj2 (proj2
             (roundtrip_spec metre millimetre (of_Z 3))))))).
    reflexivity.
Defined.

(** C6 as stated fails: the ratio centimetre/metre is the power of ten
    [1/100], yet 7 cm goes to 0.07 m and comes back one unit in the last
    place above 7; and the finite magnitude [1e307] in metres overflows
    to infinity on its way to centimetres and stays there. *)
Lemma roundtrip_counterexample :
  ~ (forall m : double,
        is_double m = true -> is_finite m = true ->
        roundtrip centimetre metre m = m)
  /\ ratio_divide (ratio_of centimetre) (ratio_of metre) = {| num := 1; den := 100 |}
  /\ ratio_divide (ratio_of metre) (ratio_of centimetre) = {| num := 100; den := 1 |}
  /\ is_double (of_Z 7) = true
  /\ is_finite (of_Z 7) = true
  /\ of_Z 7 = S754_finite false 7881299347898368 (-50)
  /\ roundtrip centimetre metre (of_Z 7) = S754_finite false 7881299347898369 (-50)
  /\ is_double (of_Z (10 ^ 307)) = true
  /\ is_finite (of_Z (10 ^ 307)) = true
  /\ roundtrip metre centimetre (of_Z (10 ^ 307)) = pinf.
Proof.
  split.
  - intro H. specialize (H (of_Z 7) eq_refl eq_refl).
    vm_compute in H. discriminate H.
  - vm_compute. repeat split; reflexivity.
Qed.

(** ** Comparison, addition, subtraction *)

(** C3. For all units [U1], [U2] and doubles [a], [b], the comparison
    [Length<U1>{a} == Length<U2>{b}] is the exact floating-point
    comparison of [a] with [convert<U2,U1>(Length<U2>{b}).value()];
    when the units are the same the code compares [a == b] directly. *)
Theorem eq_op_spec (U1 U2 : length_unit) (a b : double) :
  is_double b = true ->
  eq_op (mkLength U1 a) (mkLength U2 b)
  = feqb a (value (convert U2 U1 (mkLength U2 b)))
  /\ (U1 = U2 -> eq_op (mkLength U1 a) (mkLength U2 b) = feqb a b)
  /\ (U1 <> U2 ->
      eq_op (mkLength U1 a) (mkLength U2 b)
      = eq_cross (mkLength U1 a) (mkLength U2 b)).
Proof.
  intro Hb. unfold eq_op, eq_cross. cbn [value].
  destruct (is_same U1 U2) eqn:E.
  - apply is_same_eq in E. subst U2.
    rewrite (convert_same U1 b Hb). repeat split; congruence.
  - repeat split; try reflexivity.
    intro H. apply is_same_eq in H. congruence.
Qed.

(** Instances: 1 m against 100 cm, and NaN inches against itself. *)
Lemma eq_op_spec_witness :
  eq_op (mkLength metre (of_Z 1)) (mkLength centimetre (of_Z 100))
  = feqb (of_Z 1)
         (value (convert centimetre metre (mkLength centimetre (of_Z 100))))
  /\ eq_op (mkLength inch nan) (mkLength inch nan) = feqb nan nan.
Proof.
  split.
  - apply (proj1 (eq_op_spec metre centimetre (of_Z 1) (of_Z 100) eq_refl)).
  - apply (proj1 (proj2 (eq_op_spec inch inch nan nan eq_refl))). reflexivity.
Defined.

(** C4. For all units [U1], [U2] and doubles [a], [b], the sum
    [Length<U1>{a} + Length<U2>{b}] is a [Length<U1>] of value
    [a + convert<U2,U1>(Length<U2>{b}).value()], and the difference a
    [Length<U1>] of value [a - convert<U2,U1>(Length<U2>{b}).value()]. *)
Theorem add_subtract_spec (U1 U2 : length_unit) (a b : double) :
  is_double b = true ->
  add (mkLength U1 a) (mkLength U2 b)
  = mkLength U1 (fadd a (value (convert U2 U1 (mkLength U2 b))))
  /\ subtract (mkLength U1 a) (mkLength U2 b)
     = mkLength U1 (fsub a (value (convert U2 U1 (mkLength U2 b)))).
Proof.
  intro Hb. unfold add, subtract, add_cross, sub_cross. cbn [value].
  destruct (is_same U1 U2) eqn:E.
  - apply is_same_eq in E. subst U2.
    rewrite (convert_same U1 b Hb). split; reflexivity.
  - split; reflexivity.
Qed.

(** Instance: 200 mm and 0.5 m. *)
Lemma add_subtract_spec_witness :
  add (mkLength millimetre (of_Z 200)) (mkLength metre (decimal 5 10))
  = mkLength millimetre
      (fadd (of_Z 200)
            (value (convert metre millimetre (mkLength metre (decimal 5 10)))))
  /\ subtract (mkLength millimetre (of_Z 200)) (mkLength metre (decimal 5 10))
     = mkLength millimetre
         (fsub (of_Z 200)
               (value (convert metre millimetre (mkLength metre (decimal 5 10))))).
Proof.
  apply (add_subtract_spec millimetre metre (of_Z 200) (decimal 5 10)).
  reflexivity.
Defined.

(** C5. For every unit [U] and doubles [a], [b], the same-unit paths of
    [==], [+] and [-] give the same result as the two-unit templates
    instantiated at [U1 = U2 = U], which go through [convert<U,U>]; this
    includes NaN, both zeros and the infinities. *)
Theorem same_unit_paths_agree (U : length_unit) (a b : double) :
  is_double b = true ->
  eq_op (mkLength U a) (mkLength U b) = eq_cross (mkLength U a) (mkLength U b)
  /\ add (mkLength U a) (mkLength U b) = add_cross (mkLength U a) (mkLength U b)
  /\ add_same (mkLength U a) (mkLength U b)
     = add_cross (mkLength U a) (mkLength U b)
  /\ subtract (mkLength U a) (mkLength U b)
     = sub_cross (mkLength U a) (mkLength U b)
  /\ sub_same (mkLength U a) (mkLength U b)
     = sub_cross (mkLength U a) (mkLength U b).
Proof.
  intro Hb.
  unfold eq_op, add, subtract, add_same, sub_same, eq_cross, add_cross, sub_cross.
  rewrite is_same_refl. cbn [value].
  rewrite (convert_same U b Hb). repeat split; reflexivity.
Qed.

(** Instance: NaN and -0 inches. *)
Lemma same_unit_paths_agree_witness :
  eq_op (mkLength inch nan) (mkLength inch nzero)
  = eq_cross (mkLength inch nan) (mkLength inch nzero)
  /\ add (mkLength inch nan) (mkLength inch nzero)
     = add_cross (mkLength inch nan) (mkLength inch nzero)
  /\ add_same (mkLength inch nan) (mkLength inch nzero)
     = add_cross (mkLength inch nan) (mkLength inch nzero)
  /\ subtract (mkLength inch nan) (mkLength inch nzero)
     = sub_cross (mkLength inch nan) (mkLength inch nzero)
  /\ sub_same (mkLength inch nan) (mkLength inch nzero)
     = sub_cross (mkLength inch nan) (mkLength inch nzero).
Proof. apply (same_unit_paths_agree inch nan nzero). reflexivity. Defined.

(** C10. Same-unit equality of a length with itself is true exactly when
    the magnitude is not NaN: true for both zeros, for the infinities and
    for every finite number, false for NaN. *)
Theorem eq_op_reflexive (U : length_unit) (m : double) :
  eq_op (mkLength U m) (mkLength U m) = negb (is_nan m)
  /\ eq_op (mkLength U pzero) (mkLength U pzero) = true
  /\ eq_op (mkLength U nzero) (mkLength U nzero) = true
  /\ eq_op (mkLength U pinf) (mkLength U pinf) = true
  /\ eq_op (mkLength U ninf) (mkLength U ninf) = true
  /\ eq_op (mkLength U nan) (mkLength U nan) = false.
Proof.
  unfold eq_op. rewrite is_same_refl. cbn [value].
  rewrite feqb_refl. repeat split; reflexivity.
Qed.

(** ** Division *)

(** C7. For all units [U1], [U2] and doubles [a], [b], dividing
    [Length<U1>{a}] by [Length<U2>{b}] gives the plain double
    [a / convert<U2,U1>(Length<U2>{b}).value()]; 2 mm divided by 1 cm is
    the double [0.2]. *)
Theorem div_length_spec :
  (forall (U1 U2 : length_unit) (a b : double),
      div_length (mkLength U1 a) (mkLength U2 b)
      = fdiv a (value (convert U2 U1 (mkLength U2 b))))
  /\ div_length (lit millimetre 2) (lit centimetre 1) = decimal 2 10
  /\ decimal 2 10 = S754_finite false 7205759403792794 (-55).
Proof.
  split; [reflexivity |]. split; vm_compute; reflexivity.
Qed.

(** C8. For every unit [U] and double [m], [Length<U>{m} / 0.0] is the
    length whose value is the IEEE quotient [m / 0.0]: plus infinity for
    [m > 0], minus infinity for [m < 0], NaN for [m] zero or NaN.  The
    operation is total; it has no error result. *)
Theorem div_scalar_zero (U : length_unit) (m : double) :
  div_scalar (mkLength U m) pzero = mkLength U (fdiv m pzero)
  /\ (fltb pzero m = true -> value (div_scalar (mkLength U m) pzero) = pinf)
  /\ (fltb m pzero = true -> value (div_scalar (mkLength U m) pzero) = ninf)
  /\ (feqb m pzero = true \/ is_nan m = true ->
      value (div_scalar (mkLength U m) pzero) = nan).
Proof.
  unfold div_scalar. cbn [value].
  split; [reflexivity |].
  destruct m as [s | s | | s mm e]; try destruct s; cbn;
    intuition congruence.
Qed.

(** Instances: 3 ft, -3 ft and -0 ft. *)
Lemma div_scalar_zero_witness :
  value (div_scalar (mkLength foot (of_Z 3)) pzero) = pinf
  /\ value (div_scalar (mkLength foot (of_Z (-3))) pzero) = ninf
  /\ value (div_scalar (mkLength foot nzero) pzero) = nan.
Proof.
  split; [| split].
  - apply (proj1 (proj2 (div_scalar_zero foot (of_Z 3)))). reflexivity.
  - apply (proj1 (proj2 (proj2 (div_scalar_zero foot (of_Z (-3)))))). reflexivity.
  - apply (proj2 (proj2 (proj2 (div_scalar_zero foot nzero)))). left. reflexivity.
Defined.

(** ** A worked scenario *)

(** C9. [200 mm + 3 m * (1.0/6.0)] equals [10 cm * 2.0 + 50 cm * 1.0]:
    the left side is 700 mm, the right side 70 cm, and [==] holds.  So
    does the form the header asserts, [200_mm + 3_m / 6 == 2 * 10_cm +
    50_cm / 1.0]. *)
Theorem scenario_700mm :
  let lhs := add (lit millimetre 200)
                 (scale_r (lit metre 3) (fdiv (of_Z 1) (of_Z 6))) in
  let rhs := add (scale_r (lit centimetre 10) (of_Z 2))
                 (scale_r (lit centimetre 50) (of_Z 1)) in
  eq_op lhs rhs = true
  /\ lhs = lit millimetre 700
  /\ rhs = lit centimetre 70
  /\ eq_op (add (lit millimetre 200) (div_scalar (lit metre 3) (of_Z 6)))
           (add (scale_l (of_Z 2) (lit centimetre 10))
                (div_scalar (lit centimetre 50) (of_Z 1))) = true.
Proof. vm_compute. repeat split; reflexivity. Qed.

(** * Further properties of the operators *)

(** ** Commutativity and symmetry *)

Lemma fmul_comm (x y : double) : fmul x y = fmul y x.
Proof.
  unfold fmul, SFmul.
  destruct x as [sx | sx | | sx mx ex], y as [sy | sy | | sy my ey];
    try reflexivity; try (rewrite (xorb_comm sx sy); reflexivity).
  rewrite (xorb_comm sx sy), (Pos.mul_comm mx my), (Z.add_comm ex ey).
  reflexivity.
Qed.

Lemma fadd_comm (x y : double) : fadd x y = fadd y x.
Proof.
  unfold fadd, SFadd.
  destruct x as [sx | sx | | sx mx ex], y as [sy | sy | | sy my ey];
    try reflexivity; try (destruct sx, sy; reflexivity).
  rewrite (Z.min_comm ex ey), Z.add_comm. reflexivity.
Qed.

Lemma feqb_sym (x y : double) : feqb x y = feqb y x.
Proof.
  unfold feqb, SFeqb, SFcompare.
  destruct x as [sx | sx | | sx mx ex], y as [sy | sy | | sy my ey];
    try reflexivity; try (destruct sx, sy; reflexivity);
    try (destruct sx; reflexivity); try (destruct sy; reflexivity).
  assert (Em : Pos.compare_cont Eq mx my = CompOpp (Pos.compare_cont Eq my mx))
    by (rewrite Pos.compare_cont_antisym; reflexivity).
  destruct sx, sy; try reflexivity;
    rewrite (Z.compare_antisym ey ex), Em;
    destruct (ey ?= ex); cbn [CompOpp]; try reflexivity;
    destruct (Pos.compare_cont Eq my mx); reflexivity.
Qed.

(** ** No NaN out of nothing *)

Lemma iter_shr_1_nonneg (p : positive) (mrs : shr_record) :
  0 <= shr_m mrs -> 0 <= shr_m (iter_pos shr_1 p mrs).
Proof.
  revert mrs. induction p as [ | p IH] using Pos.peano_ind; intros mrs H.
  - cbn [iter_pos]. rewrite shr_1_m by exact H. apply Z.div_pos; lia.
  - rewrite iter_pos_succ_r. apply IH.
    rewrite shr_1_m by exact H. apply Z.div_pos; lia.
Qed.

Lemma shr_nonneg (mrs : shr_record) (e n : Z) :
  0 <= shr_m mrs -> 0 <= shr_m (fst (shr mrs e n)).
Proof.
  intro H. destruct n as [ | p | p]; cbn [shr fst]; try exact H.
  apply iter_shr_1_nonneg, H.
Qed.

Lemma round_nearest_even_nonneg (m : Z) (l : location) :
  0 <= m -> 0 <= round_nearest_even m l.
Proof.
  intro H. destruct l as [ | [ | | ]]; cbn [round_nearest_even]; try lia.
  destruct (Z.even m); lia.
Qed.

(** Rounding a non-negative mantissa gives a zero, a finite number or an
    infinity. *)
Lemma round_aux_not_nan (s : bool) (m e : Z) (l : location) :
  0 <= m -> is_nan (binary_round_aux prec emax s m e l) = false.
Proof.
  intro H. unfold binary_round_aux, shr_fexp.
  set (n1 := fexp prec emax (Zdigits2 m + e) - e).
  pose proof (shr_nonneg (shr_record_of_loc m l) e n1) as H1.
  rewrite shr_m_of_loc in H1. specialize (H1 H).
  destruct (shr (shr_record_of_loc m l) e n1) as [mrs1 e1]. cbn [fst] in H1.
  set (m2 := round_nearest_even (shr_m mrs1) (loc_of_shr_record mrs1)).
  assert (H2 : 0 <= m2) by (apply round_nearest_even_nonneg, H1).
  set (n2 := fexp prec emax (Zdigits2 m2 + e1) - e1).
  pose proof (shr_nonneg (shr_record_of_loc m2 loc_Exact) e1 n2) as H3.
  rewrite shr_m_of_loc in H3. specialize (H3 H2).
  destruct (shr (shr_record_of_loc m2 loc_Exact) e1 n2) as [mrs2 e2].
  cbn [fst] in H3.
  destruct (shr_m mrs2) as [ | p | p]; [reflexivity | | lia].
  destruct (e2 <=? emax - prec); reflexivity.
Qed.

Lemma fmul_not_nan (x y : double) :
  magnitude x <> None -> magnitude y <> None -> is_nan (fmul x y) = false.
Proof.
  destruct x as [ | | | sx mx ex], y as [ | | | sy my ey]; intros Hx Hy;
    try (exfalso; apply Hx; reflexivity); try (exfalso; apply Hy; reflexivity).
  unfold fmul, SFmul. apply round_aux_not_nan. lia.
Qed.

Lemma fdiv_not_nan (x y : double) :
  magnitude x <> None -> magnitude y <> None -> is_nan (fdiv x y) = false.
Proof.
  destruct x as [ | | | sx mx ex], y as [ | | | sy my ey]; intros Hx Hy;
    try (exfalso; apply Hx; reflexivity); try (exfalso; apply Hy; reflexivity).
  unfold fdiv, SFdiv, SFdiv_core_binary.
  set (m' := match _ with Z.pos _ => _ | 0 => _ | Z.neg _ => _ end).
  assert (Hm : 0 <= m').
  { subst m'. match goal with |- 0 <= match ?s with _ => _ end => destruct s as [ | p | p] end;
      try lia. rewrite Z.shiftl_mul_pow2 by lia.
    apply Z.mul_nonneg_nonneg; [lia | apply Z.pow_nonneg; lia]. }
  pose proof (Z_div_mod m' (Z.pos my) eq_refl) as DM.
  destruct (Z.div_eucl m' (Z.pos my)) as [q r]. destruct DM as [DM Hr].
  apply round_aux_not_nan. nia.
Qed.

Lemma fdiv_not_nan_r (x : double) (s : bool) (m : positive) (e : Z) :
  is_nan x = false -> is_nan (fdiv x (S754_finite s m e)) = false.
Proof.
  destruct x as [sx | sx | | sx mx ex]; intro H; try reflexivity; try discriminate.
  apply fdiv_not_nan; discriminate.
Qed.

Lemma fmul_not_nan_r (x : double) (s : bool) (m : positive) (e : Z) :
  is_nan x = false -> is_nan (fmul x (S754_finite s m e)) = false.
Proof.
  destruct x as [sx | sx | | sx mx ex]; intro H; try reflexivity; try discriminate.
  apply fmul_not_nan; discriminate.
Qed.

(** X2. A conversion returns NaN exactly when it is given NaN. *)
Theorem convert_nan_iff (From To : length_unit) (m : double) :
  is_nan (value (convert From To (mkLength From m))) = is_nan m.
Proof.
  unfold convert. cbn [value].
  destruct (ratio_consts From To) as [Hn Hd].
  destruct (exact_const_inv _ Hn) as (mn & en & En & _).
  destruct (exact_const_inv _ Hd) as (md & ed & Ed & _).
  rewrite En, Ed.
  destruct (is_nan m) eqn:E.
  - destruct m; try discriminate. reflexivity.
  - apply fdiv_not_nan_r, fmul_not_nan_r, E.
Qed.

(** X3. A comparison with NaN on either side is false, whatever the units. *)
Theorem eq_op_nan (U1 U2 : length_unit) (a : double) :
  eq_op (mkLength U1 nan) (mkLength U2 a) = false
  /\ eq_op (mkLength U1 a) (mkLength U2 nan) = false.
Proof.
  unfold eq_op, eq_cross. cbn [value].
  rewrite (convert_special U2 U1 nan eq_refl).
  assert (H : feqb a nan = false) by (destruct a as [ | | | [ | ] ? ?]; reflexivity).
  split; destruct (is_same U1 U2); try reflexivity; exact H.
Qed.

(** X4. Zeros of either sign are equal in any two units, infinities of the
    same sign too, and infinities of opposite signs are not. *)
Theorem eq_op_zero_inf (U1 U2 : length_unit) (s1 s2 : bool) :
  eq_op (mkLength U1 (S754_zero s1)) (mkLength U2 (S754_zero s2)) = true
  /\ eq_op (mkLength U1 (S754_infinity s1)) (mkLength U2 (S754_infinity s2))
     = Bool.eqb s1 s2.
Proof.
  unfold eq_op, eq_cross. cbn [value].
  rewrite (convert_special U2 U1 (S754_zero s2) eq_refl).
  rewrite (convert_special U2 U1 (S754_infinity s2) eq_refl).
  split; destruct (is_same U1 U2), s1, s2; reflexivity.
Qed.

(** X5. A converted length compares equal to the length it came from, unless
    it is NaN; within one unit [==] is symmetric, across units it is
    not: 7 cm converted to metres equals 7 cm, but 7 cm does not equal
    it. *)
Theorem eq_op_converted :
  (forall (U V : length_unit) (a : double),
      is_double a = true ->
      eq_op (convert U V (mkLength U a)) (mkLength U a) = negb (is_nan a))
  /\ (forall (U : length_unit) (a b : double),
        eq_op (mkLength U a) (mkLength U b) = eq_op (mkLength U b) (mkLength U a))
  /\ ~ (forall (U1 U2 : length_unit) (a b : double),
          is_double a = true -> is_double b = true ->
          eq_op (mkLength U1 a) (mkLength U2 b)
          = eq_op (mkLength U2 b) (mkLength U1 a)).
Proof.
  split; [ | split].
  - intros U V a Ha. unfold eq_op, eq_cross.
    destruct (is_same V U) eqn:E.
    + apply is_same_eq in E. subst V. cbn [value].
      rewrite (convert_same U a Ha). apply feqb_refl.
    + rewrite feqb_refl, convert_nan_iff. reflexivity.
  - intros U a b. unfold eq_op. rewrite is_same_refl. cbn [value]. apply feqb_sym.
  - intro H.
    specialize (H centimetre metre (of_Z 7)
                  (value (convert centimetre metre (lit centimetre 7)))
                  eq_refl eq_refl).
    vm_compute in H. discriminate H.
Qed.

Lemma eq_op_converted_witness :
  eq_op (convert inch foot (mkLength inch (of_Z 12))) (mkLength inch (of_Z 12))
  = true.
Proof.
  apply (proj1 eq_op_converted inch foot (of_Z 12)). reflexivity.
Defined.

(** ** Sign symmetry *)

Lemma round_aux_opp (s : bool) (m e : Z) (l : location) :
  binary_round_aux prec emax (negb s) m e l
  = SFopp (binary_round_aux prec emax s m e l).
Proof.
  unfold binary_round_aux.
  destruct (shr_fexp prec emax m e l) as [mrs1 e1].
  destruct (shr_fexp prec emax _ e1 loc_Exact) as [mrs2 e2].
  destruct (shr_m mrs2); try reflexivity.
  destruct (e2 <=? emax - prec); reflexivity.
Qed.

Lemma fmul_opp_l (x y : double) : fmul (SFopp x) y = SFopp (fmul x y).
Proof.
  unfold fmul, SFmul.
  destruct x as [sx | sx | | sx mx ex], y as [sy | sy | | sy my ey];
    cbn [SFopp]; try reflexivity; try (rewrite <- negb_xorb_l; reflexivity).
  rewrite <- negb_xorb_l. apply round_aux_opp.
Qed.

Lemma fdiv_opp_l (x y : double) : fdiv (SFopp x) y = SFopp (fdiv x y).
Proof.
  unfold fdiv, SFdiv.
  destruct x as [sx | sx | | sx mx ex], y as [sy | sy | | sy my ey];
    cbn [SFopp]; try reflexivity; try (rewrite <- negb_xorb_l; reflexivity).
  destruct (SFdiv_core_binary prec emax (Z.pos mx) ex (Z.pos my) ey) as [[mz ez] lz].
  rewrite <- negb_xorb_l. apply round_aux_opp.
Qed.

(** X6. Converting, scaling and dividing commute with a change of sign. *)
Theorem sign_symmetry (U V : length_unit) (a k : double) :
  convert U V (mkLength U (SFopp a))
  = mkLength V (SFopp (value (convert U V (mkLength U a))))
  /\ scale_l k (mkLength U (SFopp a))
     = mkLength U (SFopp (value (scale_l k (mkLength U a))))
  /\ div_scalar (mkLength U (SFopp a)) k
     = mkLength U (SFopp (value (div_scalar (mkLength U a) k))).
Proof.
  unfold convert, scale_l, div_scalar. cbn [value].
  rewrite fmul_opp_l, !fdiv_opp_l, (fmul_comm k (SFopp a)), fmul_opp_l,
    (fmul_comm a k).
  repeat split; reflexivity.
Qed.

(** ** Subtracting and dividing a length by itself *)

Lemma fsub_self (x : double) :
  fsub x x = if is_finite x then pzero else nan.
Proof.
  unfold fsub, SFsub.
  destruct x as [s | s | | s m e]; try (destruct s; reflexivity); try reflexivity.
  cbv zeta. change (IntDef.Z.min e e) with (Z.min e e). rewrite Z.min_id. unfold shl_align.
  replace (IntDef.Z.sub e e) with 0 by (symmetry; apply Z.sub_diag).
  cbn [fst]. set (X := cond_Zopp s (Z.pos m)).
  replace (IntDef.Z.sub X X) with 0 by (symmetry; apply Z.sub_diag).
  reflexivity.
Qed.

Lemma fdiv_self (s : bool) (m : positive) (e : Z) :
  fdiv (S754_finite s m e) (S754_finite s m e) = one.
Proof.
  unfold fdiv, SFdiv, SFdiv_core_binary. cbn [Zdigits2].
  rewrite !Z.sub_diag.
  change (fexp prec emax 0) with (-53).
  change (Z.min (-53) 0) with (-53). change (0 - -53) with 53.
  rewrite Z.shiftl_mul_pow2 by lia.
  rewrite (Z.mul_comm (Z.pos m)), div_eucl_mul by lia.
  assert (L : new_location (Z.pos m) 0 = loc_Exact).
  { unfold new_location. destruct (Z.even (Z.pos m)); reflexivity. }
  rewrite L, xorb_nilpotent. vm_compute. reflexivity.
Qed.

(** X7. A length minus itself is [+0] when finite and NaN otherwise; a
    finite non-zero length divided by itself is [1.0]. *)
Theorem self_subtract_divide (U : length_unit) (a : double) :
  subtract (mkLength U a) (mkLength U a)
  = mkLength U (if is_finite a then pzero else nan)
  /\ (is_double a = true ->
      div_length (mkLength U a) (mkLength U a)
      = match magnitude a with Some _ => one | None => nan end).
Proof.
  split.
  - unfold subtract. rewrite is_same_refl. cbn [value]. f_equal. apply fsub_self.
  - intro Ha. unfold div_length. cbn [value]. rewrite (convert_same U a Ha).
    destruct a as [s | s | | s m e]; try (destruct s; reflexivity);
      try reflexivity.
    cbn [magnitude]. apply fdiv_self.
Qed.

Lemma self_subtract_divide_witness :
  div_length (mkLength inch (of_Z 254)) (mkLength inch (of_Z 254)) = one.
Proof.
  apply (proj2 (self_subtract_divide inch (of_Z 254))). reflexivity.
Defined.

(** ** Scaling *)

(** X8. Both [operator*] overloads return the same length, whose magnitude
    is also [x.value() * k]: the order of the factors does not matter. *)
Theorem scale_commutes (U : length_unit) (k a : double) :
  scale_l k (mkLength U a) = scale_r (mkLength U a) k
  /\ scale_l k (mkLength U a) = mkLength U (fmul a k).
Proof.
  unfold scale_l, scale_r. cbn [value]. rewrite (fmul_comm k a).
  split; reflexivity.
Qed.

(** X9. Multiplying or dividing by [1.0] returns the length unchanged. *)
Theorem scale_by_one (U : length_unit) (a : double) :
  is_double a = true ->
  scale_l one (mkLength U a) = mkLength U a
  /\ scale_r (mkLength U a) one = mkLength U a
  /\ div_scalar (mkLength U a) one = mkLength U a.
Proof.
  intro Ha. unfold scale_l, scale_r, div_scalar. cbn [value].
  rewrite (fmul_comm one a), (fmul_one_r a Ha), (fdiv_one_r a Ha).
  repeat split; reflexivity.
Qed.

Lemma scale_by_one_witness :
  scale_l one (mkLength foot nzero) = mkLength foot nzero
  /\ scale_r (mkLength foot nzero) one = mkLength foot nzero
  /\ div_scalar (mkLength foot nzero) one = mkLength foot nzero.
Proof. apply (scale_by_one foot nzero). reflexivity. Defined.

(** X10. Same-unit addition is commutative. *)
Theorem add_same_unit_comm (U : length_unit) (a b : double) :
  add (mkLength U a) (mkLength U b) = add (mkLength U b) (mkLength U a).
Proof.
  unfold add. rewrite is_same_refl. cbn [value]. rewrite (fadd_comm a b).
  reflexivity.
Qed.

(** ** Integer literals *)

Lemma of_Z_exact (p : positive) :
  Z.pos p < 2 ^ 53 ->
  exists m e,
    of_Z (Z.pos p) = S754_finite false m e
    /\ bounded prec emax m e = true
    /\ (absQ m e == inject_Z (Z.pos p))%Q.
Proof.
  intro Hp. pose proof (digits2_bounds p) as [L U].
  set (d := Z.pos (digits2_pos p)) in *.
  assert (Hd : 0 < d <= 53).
  { split; [subst d; lia |].
    assert (K : 2 ^ (d - 1) < 2 ^ 53) by lia.
    apply pow2_lt_inv in K; lia. }
  unfold of_Z, binary_normalize, binary_round. fold d.
  assert (Hf : fexp prec emax (d + 0) = d - 53)
    by (unfold fexp, emin, prec, emax; lia).
  rewrite Hf. unfold shl_align.
  replace (IntDef.Z.sub (d - 53) 0) with (d - 53) by (symmetry; apply Z.sub_0_r).
  destruct (d - 53) as [ | q | q] eqn:Eq; [ | lia | ].
  - assert (B : bounded prec emax p 0 = true).
    { unfold bounded, canonical_mantissa. fold d. apply andb_true_iff. split.
      - apply Z.eqb_eq. rewrite Hf. lia.
      - reflexivity. }
    exists p, 0. split; [apply round_aux_canonical, B |]. split; [exact B |].
    unfold absQ. change (2 ^ 0)%Q with 1%Q. ring.
  - assert (B : bounded prec emax (Pos.iter xO p q) (Z.neg q) = true).
    { unfold bounded, canonical_mantissa. rewrite digits2_iter_xO. fold d.
      apply andb_true_iff. split.
      - apply Z.eqb_eq. unfold fexp, emin, prec, emax. lia.
      - apply Z.leb_le. unfold emax, prec. lia. }
    exists (Pos.iter xO p q), (Z.neg q).
    split; [apply round_aux_canonical, B |]. split; [exact B |].
    unfold absQ. rewrite Zpos_iter_xO, inject_Z_mult, <- Qpow2_inject by lia.
    rewrite <- Qmult_assoc, <- Qpow2_add.
    replace (Z.pos q + Z.neg q) with 0 by lia.
    change (2 ^ 0)%Q with 1%Q. ring.
Qed.

(** X11. An integer literal up to [2^53] is represented exactly; [2^53 + 1]
    is the first that is not: it gives the same length as [2^53]. *)
Theorem lit_exact (U : length_unit) :
  (forall n : Z,
      0 <= n <= 2 ^ 53 ->
      is_double (value (lit U n)) = true
      /\ is_finite (value (lit U n)) = true
      /\ (Double.to_Q (value (lit U n)) == inject_Z n)%Q)
  /\ lit U (2 ^ 53 + 1) = lit U (2 ^ 53).
Proof.
  split; [ | vm_compute; reflexivity].
  intros n [H0 H1]. unfold lit. cbn [value].
  destruct (Z.eq_dec n (2 ^ 53)) as [-> | Hn].
  { vm_compute. repeat split; reflexivity. }
  destruct n as [ | p | p]; [ | | lia].
  - vm_compute. repeat split; reflexivity.
  - destruct (of_Z_exact p) as (m & e & E & B & V); [lia |].
    rewrite E. repeat split; assumption.
Qed.

Lemma lit_exact_witness :
  (Double.to_Q (value (lit millimetre 200)) == inject_Z 200)%Q.
Proof.
  apply (proj1 (lit_exact millimetre) 200). vm_compute. split; discriminate.
Defined.

(** ** Rounding error of scaling *)

Lemma sg_mul2 (s1 s2 : bool) (a b : Q) :
  (sg s1 a * sg s2 b == sg (xorb s1 s2) (a * b))%Q.
Proof. destruct s1, s2; cbn [sg xorb]; ring. Qed.

Lemma sg_div2 (s1 s2 : bool) (a b : Q) :
  ~ (b == 0)%Q -> (sg s1 a / sg s2 b == sg (xorb s1 s2) (a / b))%Q.
Proof. intro Hb. destruct s1, s2; cbn [sg xorb]; field; exact Hb. Qed.

Lemma absQ_nonzero (m : positive) (e : Z) : ~ (absQ m e == 0)%Q.
Proof.
  pose proof (absQ_pos m e) as H. intro K. rewrite K in H.
  revert H. apply Qlt_irrefl.
Qed.

Lemma fmul_double_error (sx sy : bool) (mx my : positive) (ex ey : Z) :
  bounded prec emax mx ex = true -> bounded prec emax my ey = true ->
  -1020 <= (Z.pos (digits2_pos mx) + ex) + (Z.pos (digits2_pos my) + ey) <= 1023 ->
  is_double (fmul (S754_finite sx mx ex) (S754_finite sy my ey)) = true
  /\ is_finite (fmul (S754_finite sx mx ex) (S754_finite sy my ey)) = true
  /\ (Qabs (Double.to_Q (fmul (S754_finite sx mx ex) (S754_finite sy my ey))
            - Double.to_Q (S754_finite sx mx ex) * Double.to_Q (S754_finite sy my ey))
      <= u * Qabs (Double.to_Q (S754_finite sx mx ex)
                   * Double.to_Q (S754_finite sy my ey)))%Q.
Proof.
  intros Bx By Hr.
  destruct (bounded_digits mx ex Bx) as (Dx & Ex & Sx).
  destruct (bounded_digits my ey By) as (Dy & Ey & Sy).
  assert (0 < Z.pos (digits2_pos mx)) by lia.
  assert (0 < Z.pos (digits2_pos my)) by lia.
  destruct (fmul_correct sx sy mx my ex ey) as (m' & e' & E & B & _ & C);
    [lia | lia |].
  unfold fmul. rewrite E. split; [exact B |]. split; [reflexivity |].
  rewrite !to_Q_finite, sg_mul2.
  apply close_abs; [ | exact C].
  apply Qmult_lt_0_compat; apply absQ_pos.
Qed.

Lemma fdiv_double_error (sx sy : bool) (mx my : positive) (ex ey : Z) :
  -1021 <= (Z.pos (digits2_pos mx) + ex) - (Z.pos (digits2_pos my) + ey) <= 1022 ->
  is_double (fdiv (S754_finite sx mx ex) (S754_finite sy my ey)) = true
  /\ is_finite (fdiv (S754_finite sx mx ex) (S754_finite sy my ey)) = true
  /\ (Qabs (Double.to_Q (fdiv (S754_finite sx mx ex) (S754_finite sy my ey))
            - Double.to_Q (S754_finite sx mx ex) / Double.to_Q (S754_finite sy my ey))
      <= u * Qabs (Double.to_Q (S754_finite sx mx ex)
                   / Double.to_Q (S754_finite sy my ey)))%Q.
Proof.
  intro Hr.
  destruct (fdiv_correct sx sy mx my ex ey) as (m' & e' & E & B & _ & C); [lia |].
  unfold fdiv. rewrite E. split; [exact B |]. split; [reflexivity |].
  rewrite !to_Q_finite, (sg_div2 _ _ _ _ (absQ_nonzero my ey)).
  apply close_abs; [ | exact C].
  unfold Qdiv. apply Qmult_lt_0_compat; [apply absQ_pos |].
  apply Qinv_lt_0_compat, absQ_pos.
Qed.

(** X12. Scaling multiplies, and dividing by a scalar divides, the canonical
    metres of a length, up to one rounding, while the exact result is in
    the normal range. *)
Theorem scale_error (U : length_unit) (k a : double) (mk ma : Z) :
  is_double k = true -> is_double a = true ->
  magnitude k = Some mk -> magnitude a = Some ma ->
  (-1020 <= ma + mk <= 1023 ->
   is_double (value (scale_l k (mkLength U a))) = true
   /\ is_finite (value (scale_l k (mkLength U a))) = true
   /\ (Qabs (metres (scale_l k (mkLength U a))
             - Double.to_Q k * metres (mkLength U a))
       <= u * Qabs (Double.to_Q k * metres (mkLength U a)))%Q)
  /\ (-1021 <= ma - mk <= 1022 ->
      is_double (value (div_scalar (mkLength U a) k)) = true
      /\ is_finite (value (div_scalar (mkLength U a) k)) = true
      /\ (Qabs (metres (div_scalar (mkLength U a) k)
                - metres (mkLength U a) / Double.to_Q k)
          <= u * Qabs (metres (mkLength U a) / Double.to_Q k))%Q).
Proof.
  intros Hk Ha Mk Ma.
  destruct k as [ | | | sk mk' ek]; try discriminate.
  destruct a as [ | | | sa ma' ea]; try discriminate.
  assert (Emk : mk = Z.pos (digits2_pos mk') + ek) by (unfold magnitude in Mk; congruence).
  assert (Ema : ma = Z.pos (digits2_pos ma') + ea) by (unfold magnitude in Ma; congruence).
  pose proof (scaleQ_positive U) as PU.
  unfold scale_l, div_scalar, metres. cbn [value]. split; intro Hr.
  - destruct (fmul_double_error sk sa mk' ma' ek ea Hk Ha) as (V & F & C); [lia |].
    split; [exact V |]. split; [exact F |].
    set (p := Double.to_Q (fmul (S754_finite sk mk' ek) (S754_finite sa ma' ea))) in *.
    set (x := Double.to_Q (S754_finite sk mk' ek)) in *.
    set (y := Double.to_Q (S754_finite sa ma' ea)) in *.
    assert (E1 : (p * scaleQ U - x * (y * scaleQ U) == (p - x * y) * scaleQ U)%Q) by ring.
    assert (E2 : (x * (y * scaleQ U) == (x * y) * scaleQ U)%Q) by ring.
    rewrite E1, E2, (Qabs_Qmult (p - x * y)), (Qabs_Qmult (x * y) (scaleQ U)),
      (Qabs_pos (scaleQ U)) by lra.
    rewrite Qmult_assoc. apply Qmult_le_compat_r; [exact C | lra].
  - destruct (fdiv_double_error sa sk ma' mk' ea ek) as (V & F & C); [lia |].
    split; [exact V |]. split; [exact F |].
    set (p := Double.to_Q (fdiv (S754_finite sa ma' ea) (S754_finite sk mk' ek))) in *.
    set (x := Double.to_Q (S754_finite sk mk' ek)) in *.
    set (y := Double.to_Q (S754_finite sa ma' ea)) in *.
    assert (E1 : (p * scaleQ U - y * scaleQ U / x == (p - y / x) * scaleQ U)%Q)
      by (unfold Qdiv; ring).
    assert (E2 : (y * scaleQ U / x == (y / x) * scaleQ U)%Q) by (unfold Qdiv; ring).
    rewrite E1, E2, (Qabs_Qmult (p - y / x)), (Qabs_Qmult (y / x) (scaleQ U)),
      (Qabs_pos (scaleQ U)) by lra.
    rewrite Qmult_assoc. apply Qmult_le_compat_r; [exact C | lra].
Qed.

Lemma scale_error_witness :
  is_finite (value (scale_l (of_Z 4) (mkLength metre (of_Z 1)))) = true
  /\ is_finite (value (div_scalar (mkLength metre (of_Z 1)) (of_Z 4))) = true.
Proof.
  split.
  - apply (proj1 (scale_error metre (of_Z 4) (of_Z 1) 3 1 eq_refl eq_refl eq_refl eq_refl)).
    lia.
  - apply (proj2 (scale_error metre (of_Z 4) (of_Z 1) 3 1 eq_refl eq_refl eq_refl eq_refl)).
    lia.
Defined.

(** ** Conversions in sequence *)

Lemma convert_rebuild (A B : length_unit) (x y : double) :
  value (convert A B (mkLength A x)) = y ->
  convert A B (mkLength A x) = mkLength B y.
Proof.
  intro H. destruct (convert A B (mkLength A x)) as [v]. cbn [value] in H.
  rewrite H. reflexivity.
Qed.

Lemma convert_chain_finite (A B C : length_unit) (s : bool) (m : positive) (e : Z) :
  -995 <= Z.pos (digits2_pos m) + e <= 994 ->
  exists m' e',
    value (convert B C (convert A B (mkLength A (S754_finite s m e))))
    = S754_finite s m' e'
    /\ bounded prec emax m' e' = true
    /\ close eps_roundtrip (absQ m' e' * scaleQ C) (absQ m e * scaleQ A).
Proof.
  intro Hr.
  destruct (convert_finite A B s m e) as (m1 & e1 & E1 & B1 & M1 & C1); [lia |].
  rewrite (convert_rebuild A B _ _ E1).
  destruct (convert_finite B C s m1 e1) as (m2 & e2 & E2 & B2 & M2 & C2); [lia |].
  exists m2, e2. split; [exact E2 |]. split; [exact B2 |].
  pose proof (scaleQ_positive B) as PB. pose proof (scaleQ_positive C) as PC.
  pose proof (scaleQ_positive A) as PA.
  apply (close_mul _ _ _ _ (Qlt_le_weak _ _ PC)) in C2.
  apply (close_eq _ _ _ (absQ m1 e1 * scaleQ B)) in C2;
    [ | rewrite <- Qmult_assoc, ratio_scale; reflexivity].
  apply (close_mul _ _ _ _ (Qlt_le_weak _ _ PB)) in C1.
  apply (close_eq _ _ _ (absQ m e * scaleQ A)) in C1;
    [ | rewrite <- Qmult_assoc, ratio_scale; reflexivity].
  assert (P0 : (0 <= absQ m e * scaleQ A)%Q).
  { apply Qlt_le_weak, Qmult_lt_0_compat; [apply absQ_pos | exact PA]. }
  unfold close in *. unfold eps_convert, eps_roundtrip in *.
  destruct C1 as [C1a C1b], C2 as [C2a C2b]. split; lra.
Qed.

(** X13. Converting through an intermediate unit keeps the canonical metres
    of a finite length in range within a relative error of [2^-50]. *)
Theorem convert_chain (A B C : length_unit) (m : double) :
  in_range (-995) 994 m = true ->
  let y := convert B C (convert A B (mkLength A m)) in
  is_double (value y) = true
  /\ is_finite (value y) = true
  /\ (Qabs (metres y - metres (mkLength A m))
      <= eps_roundtrip * Qabs (metres (mkLength A m)))%Q.
Proof.
  intros Hr y. destruct (in_range_inv _ _ _ Hr) as (s & mm & e & -> & Hmag).
  destruct (convert_chain_finite A B C s mm e Hmag) as (m' & e' & E & Bd & Cl).
  subst y. unfold metres. rewrite E. cbn [value].
  split; [exact Bd |]. split; [reflexivity |].
  rewrite !to_Q_finite, !sg_mul.
  apply close_abs; [ | exact Cl].
  apply Qmult_lt_0_compat; [apply absQ_pos | apply scaleQ_positive].
Qed.

Lemma convert_chain_witness :
  is_finite (value (convert inch foot (convert metre inch (mkLength metre (of_Z 1)))))
  = true.
Proof. apply (convert_chain metre inch foot (of_Z 1)). reflexivity. Defined.

(** ** The ratio of two lengths *)

Lemma close_quotient (a b v q : Q) :
  (0 < a)%Q -> (0 < v)%Q ->
  close eps_convert b v -> close u q (a / b) -> close eps_roundtrip q (a / v).
Proof.
  intros Ha Hv [B1 B2] [Q1 Q2].
  assert (Hb : (0 < b)%Q) by (unfold eps_convert in B1; lra).
  set (t := (a / b)%Q) in *. set (w := (a / v)%Q).
  assert (Et : (t * b == a)%Q) by (subst t; field; lra).
  assert (Ew : (w * v == a)%Q) by (subst w; field; lra).
  assert (Ht : (0 < t)%Q).
  { subst t. unfold Qdiv. apply Qmult_lt_0_compat; [exact Ha |].
    apply Qinv_lt_0_compat, Hb. }
  assert (L1 : (t * (1 - eps_convert) <= w)%Q).
  { apply (Qmult_le_r _ _ v Hv). rewrite Ew, <- Et, <- Qmult_assoc.
    apply Qmult_le_l; [exact Ht | exact B1]. }
  assert (L2 : (w <= t * (1 + eps_convert))%Q).
  { apply (Qmult_le_r _ _ v Hv). rewrite Ew, <- Et, <- Qmult_assoc.
    apply Qmult_le_l; [exact Ht | exact B2]. }
  unfold close, u, eps_convert, eps_roundtrip in *. split; lra.
Qed.

(** X14. Dividing two lengths gives the ratio of their canonical metres up to
    a relative error of [2^-50], while no intermediate leaves the normal
    range. *)
Theorem div_length_ratio (U1 U2 : length_unit) (a b : double) (ma mb : Z) :
  magnitude a = Some ma -> magnitude b = Some mb ->
  -1008 <= mb <= 1009 -> -1006 <= ma - mb <= 1007 ->
  let q := div_length (mkLength U1 a) (mkLength U2 b) in
  is_double q = true
  /\ is_finite q = true
  /\ (Qabs (Double.to_Q q - metres (mkLength U1 a) / metres (mkLength U2 b))
      <= eps_roundtrip * Qabs (metres (mkLength U1 a) / metres (mkLength U2 b)))%Q.
Proof.
  intros Ma Mb Hb Hab q.
  destruct a as [ | | | sa pa ea]; try discriminate.
  destruct b as [ | | | sb pb eb]; try discriminate.
  assert (Ema : ma = Z.pos (digits2_pos pa) + ea) by (unfold magnitude in Ma; congruence).
  assert (Emb : mb = Z.pos (digits2_pos pb) + eb) by (unfold magnitude in Mb; congruence).
  destruct (convert_finite U2 U1 sb pb eb) as (m1 & e1 & E1 & B1 & M1 & C1); [lia |].
  subst q. unfold div_length. cbn [value]. rewrite E1.
  destruct (fdiv_correct sa sb pa m1 ea e1) as (m2 & e2 & E2 & B2 & _ & C2); [lia |].
  unfold fdiv. rewrite E2. split; [exact B2 |]. split; [reflexivity |].
  pose proof (scaleQ_positive U1) as P1. pose proof (scaleQ_positive U2) as P2.
  pose proof (ratio_positive U2 U1) as Pc.
  pose proof (absQ_pos pa ea) as Pa. pose proof (absQ_pos pb eb) as Pb.
  set (c := StdRatio.to_Q (ratio_divide (ratio_of U2) (ratio_of U1))) in *.
  assert (Pv : (0 < absQ pb eb * c)%Q) by (apply Qmult_lt_0_compat; assumption).
  pose proof (close_quotient _ _ _ _ Pa Pv C1 C2) as K.
  assert (EV : (Double.to_Q (S754_finite sa pa ea) * scaleQ U1
                / (Double.to_Q (S754_finite sb pb eb) * scaleQ U2)
                == sg (xorb sa sb) (absQ pa ea / (absQ pb eb * c)))%Q).
  { rewrite !to_Q_finite.
    assert (Ec : (c * scaleQ U1 == scaleQ U2)%Q) by (subst c; apply ratio_scale).
    rewrite <- Ec.
    destruct sa, sb; cbn [sg xorb]; field; repeat split; lra. }
  unfold metres. cbn [value]. rewrite EV, to_Q_finite.
  apply close_abs; [ | exact K].
  unfold Qdiv. apply Qmult_lt_0_compat; [exact Pa | apply Qinv_lt_0_compat, Pv].
Qed.

Lemma div_length_ratio_witness :
  is_finite (div_length (mkLength millimetre (of_Z 2)) (mkLength centimetre (of_Z 1)))
  = true.
Proof.
  apply (div_length_ratio millimetre centimetre (of_Z 2) (of_Z 1) 2 1
           eq_refl eq_refl); lia.
Defined.

(** ** Rounding error of addition *)

Lemma shl_align_value (mx : positive) (ex ez : Z) :
  ez <= ex ->
  Z.pos (fst (shl_align mx ex ez)) = Z.pos mx * 2 ^ (ex - ez).
Proof.
  intro H. unfold shl_align.
  replace (IntDef.Z.sub ez ex) with (ez - ex) by reflexivity.
  destruct (ez - ex) as [ | k | k] eqn:E; cbn [fst].
  - replace (ex - ez) with 0 by lia. rewrite Z.pow_0_r. lia.
  - lia.
  - rewrite Zpos_iter_xO. replace (ex - ez) with (Z.pos k) by lia. reflexivity.
Qed.

Lemma close_refl (x v : Q) : (0 <= v)%Q -> (x == v)%Q -> close u x v.
Proof. intros Hv E. unfold close, u. split; lra. Qed.

(** Rounding a positive integer mantissa at an exponent no smaller than
    the least one. *)
Lemma binary_round_correct (s : bool) (p : positive) (ez : Z) :
  -1074 <= ez -> Z.pos (digits2_pos p) + ez <= 1023 ->
  exists m' e',
    binary_round prec emax s p ez = S754_finite s m' e'
    /\ bounded prec emax m' e' = true
    /\ close u (absQ m' e') (absQ p ez).
Proof.
  intros Hez Hhi. unfold binary_round.
  set (d := Z.pos (digits2_pos p)) in *.
  assert (Hd : 0 < d) by (subst d; lia).
  set (f := fexp prec emax (d + ez)).
  assert (Hf : f = Z.max (d + ez - 53) (-1074)) by reflexivity.
  pose proof (absQ_pos p ez) as Pp.
  unfold shl_align.
  replace (IntDef.Z.sub f ez) with (f - ez) by reflexivity.
  destruct (f - ez) as [ | k | k] eqn:E.
  - (* already canonical *)
    assert (B : bounded prec emax p ez = true).
    { unfold bounded, canonical_mantissa. fold d. fold f. apply andb_true_iff.
      split; [apply Z.eqb_eq; lia | apply Z.leb_le; unfold emax, prec; lia]. }
    exists p, ez. split; [apply round_aux_canonical, B |]. split; [exact B |].
    apply close_refl; [lra | reflexivity].
  - (* more than 53 bits: one rounding in the normal range *)
    destruct (round_aux_correct s p ez loc_Exact (inject_Z (Z.pos p)))
      as (m' & e' & R1 & R2 & R3 & R4 & R5 & R6);
      [fold d; lia | fold d; lia | reflexivity |].
    exists m', e'. split; [exact R1 |]. split; [exact R2 |].
    unfold close. rewrite (absQ_shift m' e' ez R4). unfold absQ.
    pose proof (Qpow2_pos ez) as HP. rewrite !Qmult_assoc.
    split; apply Qmult_le_compat_r; try assumption; apply Qlt_le_weak, HP.
  - (* fewer bits: pad with zeros *)
    assert (B : bounded prec emax (Pos.iter xO p k) f = true).
    { unfold bounded, canonical_mantissa. rewrite digits2_iter_xO. fold d.
      apply andb_true_iff. split.
      - apply Z.eqb_eq. replace (d + Z.pos k + f) with (d + ez) by lia. reflexivity.
      - apply Z.leb_le. unfold emax, prec. lia. }
    exists (Pos.iter xO p k), f.
    split; [apply round_aux_canonical, B |]. split; [exact B |].
    apply close_refl; [lra |].
    unfold absQ. rewrite Zpos_iter_xO, inject_Z_mult, <- Qpow2_inject by lia.
    rewrite <- Qmult_assoc, <- Qpow2_add.
    replace (Z.pos k + f) with ez by lia. reflexivity.
Qed.

Lemma normalize_correct (M ez : Z) :
  -1074 <= ez -> Z.abs M < 2 ^ (1023 - ez) ->
  is_double (binary_normalize prec emax M ez false) = true
  /\ is_finite (binary_normalize prec emax M ez false) = true
  /\ (Qabs (Double.to_Q (binary_normalize prec emax M ez false)
            - inject_Z M * 2 ^ ez)
      <= u * Qabs (inject_Z M * 2 ^ ez))%Q.
Proof.
  intros Hez HM. destruct M as [ | p | p]; unfold binary_normalize.
  - split; [reflexivity |]. split; [reflexivity |].
    cbn [Double.to_Q]. change (inject_Z 0) with 0%Q.
    assert (E : (0 - 0 * 2 ^ ez == 0)%Q) by ring.
    assert (E' : (0 * 2 ^ ez == 0)%Q) by ring.
    rewrite E, E'. cbn. unfold u. lra.
  - assert (Hd : Z.pos (digits2_pos p) <= 1023 - ez) by (apply digits2_le; lia).
    destruct (binary_round_correct false p ez Hez) as (m' & e' & E & B & C); [lia |].
    rewrite E. split; [exact B |]. split; [reflexivity |].
    apply (close_abs _ _ _ false (absQ_pos p ez) C).
  - assert (Hd : Z.pos (digits2_pos p) <= 1023 - ez) by (apply digits2_le; lia).
    destruct (binary_round_correct true p ez Hez) as (m' & e' & E & B & C); [lia |].
    rewrite E. split; [exact B |]. split; [reflexivity |].
    pose proof (close_abs _ _ _ true (absQ_pos p ez) C) as K.
    cbn [sg] in K. rewrite to_Q_finite. cbn [sg].
    assert (EV : (inject_Z (Z.neg p) * 2 ^ ez == - absQ p ez)%Q).
    { unfold absQ. change (Z.neg p) with (- Z.pos p). rewrite inject_Z_opp. ring. }
    rewrite EV. exact K.
Qed.

Lemma cond_Zopp_Q (s : bool) (m : positive) (ex ez : Z) :
  ez <= ex ->
  (inject_Z (cond_Zopp s (Z.pos m * 2 ^ (ex - ez))) * 2 ^ ez
   == Double.to_Q (S754_finite s m ex))%Q.
Proof.
  intro H. rewrite to_Q_finite.
  assert (E : (inject_Z (Z.pos m * 2 ^ (ex - ez)) * 2 ^ ez == absQ m ex)%Q).
  { symmetry. apply absQ_shift, H. }
  destruct s; cbn [cond_Zopp sg]; [rewrite inject_Z_opp |]; rewrite <- E; ring.
Qed.

Lemma shifted_mantissa_bound (m : positive) (ex ez K : Z) :
  ez <= ex -> Z.pos (digits2_pos m) + ex <= K ->
  Z.pos m * 2 ^ (ex - ez) < 2 ^ (K - ez).
Proof.
  intros H HK. pose proof (digits2_bounds m) as [_ U].
  set (d := Z.pos (digits2_pos m)) in *.
  assert (Hd : 0 < d) by (subst d; lia).
  apply Z.lt_le_trans with (2 ^ d * 2 ^ (ex - ez)).
  - apply Z.mul_lt_mono_pos_r; [apply Z.pow_pos_nonneg; lia | exact U].
  - rewrite <- Z.pow_add_r by lia. apply Z.pow_le_mono_r; lia.
Qed.

(** The sum of two finite numbers below [2^1022] in magnitude is the
    exact sum up to a relative error of [2^-53]. *)
Lemma fadd_double_error (sx sy : bool) (mx my : positive) (ex ey : Z) :
  bounded prec emax mx ex = true -> bounded prec emax my ey = true ->
  Z.pos (digits2_pos mx) + ex <= 1022 -> Z.pos (digits2_pos my) + ey <= 1022 ->
  let r := fadd (S754_finite sx mx ex) (S754_finite sy my ey) in
  is_double r = true
  /\ is_finite r = true
  /\ (Qabs (Double.to_Q r
            - (Double.to_Q (S754_finite sx mx ex) + Double.to_Q (S754_finite sy my ey)))
      <= u * Qabs (Double.to_Q (S754_finite sx mx ex)
                   + Double.to_Q (S754_finite sy my ey)))%Q.
Proof.
  intros Bx By Hx Hy r.
  destruct (bounded_digits mx ex Bx) as (_ & Ex & _).
  destruct (bounded_digits my ey By) as (_ & Ey & _).
  subst r. unfold fadd, SFadd.
  change (IntDef.Z.min ex ey) with (Z.min ex ey).
  set (ez := Z.min ex ey).
  assert (Hzx : ez <= ex) by (subst ez; lia).
  assert (Hzy : ez <= ey) by (subst ez; lia).
  rewrite (shl_align_value mx ex ez Hzx), (shl_align_value my ey ez Hzy).
  set (M := IntDef.Z.add _ _).
  assert (EM : M = cond_Zopp sx (Z.pos mx * 2 ^ (ex - ez))
                   + cond_Zopp sy (Z.pos my * 2 ^ (ey - ez))) by reflexivity.
  pose proof (shifted_mantissa_bound mx ex ez 1022 Hzx Hx) as Ux.
  pose proof (shifted_mantissa_bound my ey ez 1022 Hzy Hy) as Uy.
  assert (HP : 2 ^ (1023 - ez) = 2 * 2 ^ (1022 - ez)).
  { replace (1023 - ez) with (Z.succ (1022 - ez)) by lia.
    apply Z.pow_succ_r. subst ez. lia. }
  assert (HM : Z.abs M < 2 ^ (1023 - ez)).
  { rewrite EM, HP.
    assert (0 < Z.pos mx * 2 ^ (ex - ez)) by (apply Z.mul_pos_pos; [lia | apply Z.pow_pos_nonneg; lia]).
    assert (0 < Z.pos my * 2 ^ (ey - ez)) by (apply Z.mul_pos_pos; [lia | apply Z.pow_pos_nonneg; lia]).
    destruct sx, sy; cbn [cond_Zopp]; lia. }
  destruct (normalize_correct M ez) as (V & F & C); [subst ez; lia | exact HM |].
  split; [exact V |]. split; [exact F |].
  assert (EV : (inject_Z M * 2 ^ ez
                == Double.to_Q (S754_finite sx mx ex)
                   + Double.to_Q (S754_finite sy my ey))%Q).
  { rewrite EM, inject_Z_plus, Qmult_plus_distr_l,
      (cond_Zopp_Q sx mx ex ez Hzx), (cond_Zopp_Q sy my ey ez Hzy).
    reflexivity. }
  rewrite <- EV. exact C.
Qed.

Lemma fsub_fadd_opp (x y : double) : fsub x y = fadd x (SFopp y).
Proof.
  unfold fsub, fadd, SFsub, SFadd.
  destruct x as [sx | sx | | sx mx ex], y as [sy | sy | | sy my ey];
    cbn [SFopp]; try reflexivity; try (destruct sx, sy; reflexivity).
Qed.

Lemma add_error_Q (S A B W : Q) :
  (Qabs (S - (A + B)) <= u * Qabs (A + B))%Q ->
  (Qabs (B - W) <= eps_convert * Qabs W)%Q ->
  (Qabs (S - (A + W)) <= eps_roundtrip * (Qabs A + Qabs W))%Q.
Proof.
  intros H1 H2.
  pose proof (Qabs_triangle A B) as T1.
  pose proof (Qabs_triangle W (B - W)) as T2.
  pose proof (Qabs_triangle (S - (A + B)) (B - W)) as T3.
  assert (E2 : (Qabs (W + (B - W)) == Qabs B)%Q) by (apply Qabs_wd; ring).
  assert (E3 : (Qabs (S - (A + B) + (B - W)) == Qabs (S - (A + W)))%Q)
    by (apply Qabs_wd; ring).
  rewrite E2 in T2. rewrite E3 in T3.
  pose proof (Qabs_nonneg A). pose proof (Qabs_nonneg W).
  unfold u, eps_convert, eps_roundtrip in *.
  set (x1 := Qabs (S - (A + W))) in *. set (x2 := Qabs (S - (A + B))) in *.
  set (x3 := Qabs (B - W)) in *. set (x4 := Qabs (A + B)) in *.
  set (x5 := Qabs A) in *. set (x6 := Qabs B) in *. set (x7 := Qabs W) in *.
  lra.
Qed.

(** X15. The sum and the difference of two lengths, in canonical metres, are
    the exact sum and difference up to [2^-50] of the two magnitudes
    together, while nothing overflows. *)
Theorem add_subtract_error (U1 U2 : length_unit) (a b : double) (ma : Z) :
  is_double a = true -> is_double b = true ->
  magnitude a = Some ma -> ma <= 1022 ->
  in_range (-1008) 1007 b = true ->
  let s := add (mkLength U1 a) (mkLength U2 b) in
  let d := subtract (mkLength U1 a) (mkLength U2 b) in
  (is_double (value s) = true
   /\ is_finite (value s) = true
   /\ (Qabs (metres s - (metres (mkLength U1 a) + metres (mkLength U2 b)))
       <= eps_roundtrip
          * (Qabs (metres (mkLength U1 a)) + Qabs (metres (mkLength U2 b))))%Q)
  /\ (is_double (value d) = true
      /\ is_finite (value d) = true
      /\ (Qabs (metres d - (metres (mkLength U1 a) - metres (mkLength U2 b)))
          <= eps_roundtrip
             * (Qabs (metres (mkLength U1 a)) + Qabs (metres (mkLength U2 b))))%Q).
Proof.
  intros Ha Hb Ma Hma Rb s d.
  destruct a as [ | | | sa pa ea]; try discriminate.
  assert (Ema : ma = Z.pos (digits2_pos pa) + ea) by (unfold magnitude in Ma; congruence).
  destruct (in_range_inv _ _ _ Rb) as (sb & pb & eb & Eb & Hmb). subst b.
  destruct (convert_finite U2 U1 sb pb eb) as (m1 & e1 & E1 & B1 & M1 & C1); [lia |].
  (* both operators add or subtract the converted right operand *)
  assert (Es : value s = fadd (S754_finite sa pa ea) (S754_finite sb m1 e1)).
  { subst s. unfold add, add_cross. destruct (is_same U1 U2) eqn:E; cbn [value].
    - apply is_same_eq in E. subst U2.
      rewrite (convert_same U1 _ Hb) in E1. rewrite E1. reflexivity.
    - rewrite E1. reflexivity. }
  assert (Ed : value d = fadd (S754_finite sa pa ea) (S754_finite (negb sb) m1 e1)).
  { subst d. unfold subtract, sub_cross. destruct (is_same U1 U2) eqn:E; cbn [value].
    - apply is_same_eq in E. subst U2.
      rewrite (convert_same U1 _ Hb) in E1. rewrite E1. apply fsub_fadd_opp.
    - rewrite E1. apply fsub_fadd_opp. }
  pose proof (scaleQ_positive U1) as P1.
  pose proof (ratio_positive U2 U1) as Pc.
  set (c := StdRatio.to_Q (ratio_divide (ratio_of U2) (ratio_of U1))) in *.
  assert (Ec : (c * scaleQ U1 == scaleQ U2)%Q) by (subst c; apply ratio_scale).
  assert (Pv : (0 < absQ pb eb * c)%Q)
    by (apply Qmult_lt_0_compat; [apply absQ_pos | exact Pc]).
  assert (Wrap : forall (S B W : Q),
    (Qabs (S - (Double.to_Q (S754_finite sa pa ea) + B))
     <= u * Qabs (Double.to_Q (S754_finite sa pa ea) + B))%Q ->
    (Qabs (B - W) <= eps_convert * Qabs W)%Q ->
    (Qabs (S * scaleQ U1
           - (Double.to_Q (S754_finite sa pa ea) * scaleQ U1 + W * scaleQ U1))
     <= eps_roundtrip
        * (Qabs (Double.to_Q (S754_finite sa pa ea) * scaleQ U1)
           + Qabs (W * scaleQ U1)))%Q).
  { intros S B W H1 H2. pose proof (add_error_Q _ _ _ _ H1 H2) as K.
    set (A := Double.to_Q (S754_finite sa pa ea)) in *.
    assert (E1' : (S * scaleQ U1 - (A * scaleQ U1 + W * scaleQ U1)
                   == (S - (A + W)) * scaleQ U1)%Q) by ring.
    rewrite E1', !Qabs_Qmult, (Qabs_pos (scaleQ U1)) by lra.
    rewrite <- Qmult_plus_distr_l, Qmult_assoc.
    apply Qmult_le_compat_r; [exact K | lra]. }
  unfold metres. cbn [value]. split.
  - rewrite Es.
    destruct (fadd_double_error sa sb pa m1 ea e1 Ha B1) as (V & F & C); [lia | lia |].
    split; [exact V |]. split; [exact F |].
    assert (EW : (Double.to_Q (S754_finite sb pb eb) * scaleQ U2
                  == Double.to_Q (S754_finite sb pb eb) * c * scaleQ U1)%Q)
      by (rewrite <- Ec; ring).
    rewrite EW. apply (Wrap _ (Double.to_Q (S754_finite sb m1 e1))); [exact C |].
    rewrite !to_Q_finite, sg_mul. apply close_abs; assumption.
  - rewrite Ed.
    destruct (fadd_double_error sa (negb sb) pa m1 ea e1 Ha B1) as (V & F & C);
      [lia | lia |].
    split; [exact V |]. split; [exact F |].
    assert (EW : (Double.to_Q (S754_finite sa pa ea) * scaleQ U1
                  - Double.to_Q (S754_finite sb pb eb) * scaleQ U2
                  == Double.to_Q (S754_finite sa pa ea) * scaleQ U1
                     + Double.to_Q (S754_finite (negb sb) pb eb) * c * scaleQ U1)%Q).
    { rewrite <- Ec, !to_Q_finite. destruct sb; cbn [negb sg]; ring. }
    assert (EA : (Qabs (Double.to_Q (S754_finite sb pb eb) * scaleQ U2)
                  == Qabs (Double.to_Q (S754_finite (negb sb) pb eb) * c * scaleQ U1))%Q).
    { rewrite <- Ec, !to_Q_finite.
      destruct sb; cbn [negb sg].
      - rewrite <- Qabs_opp. apply Qabs_wd. ring.
      - rewrite <- Qabs_opp. apply Qabs_wd. ring. }
    rewrite EW, EA.
    apply (Wrap _ (Double.to_Q (S754_finite (negb sb) m1 e1))); [exact C |].
    rewrite !to_Q_finite, sg_mul. apply close_abs; assumption.
Qed.

Lemma add_subtract_error_witness :
  is_finite (value (add (mkLength millimetre (of_Z 200)) (mkLength metre (decimal 5 10))))
  = true.
Proof.
  apply (add_subtract_error millimetre metre (of_Z 200) (decimal 5 10) 8
           eq_refl eq_refl eq_refl); [lia | reflexivity].
Defined.

(** ** What [==] and a zero operand guarantee *)

Lemma feqb_eq_Q (x y : double) :
  feqb x y = true -> (Double.to_Q x == Double.to_Q y)%Q.
Proof.
  unfold feqb, SFeqb, SFcompare.
  destruct x as [sx | sx | | sx mx ex], y as [sy | sy | | sy my ey];
    try discriminate; try reflexivity;
    try (destruct sx; discriminate); try (destruct sy; discriminate).
  destruct sx, sy; try discriminate;
    destruct (Z.compare_spec ex ey) as [E | E | E]; try discriminate;
    destruct (Pos.compare_cont Eq mx my) eqn:C; try discriminate;
    intros _; apply Pos.compare_eq in C; subst; reflexivity.
Qed.

Lemma convert_metres_error (From To : length_unit) (m : double) :
  in_range (-1008) 1009 m = true ->
  (Qabs (metres (convert From To (mkLength From m)) - metres (mkLength From m))
   <= eps_convert * Qabs (metres (mkLength From m)))%Q.
Proof.
  intro Hr. destruct (in_range_inv _ _ _ Hr) as (s & mm & e & -> & Hmag).
  destruct (convert_finite From To s mm e Hmag) as (m' & e' & E & _ & _ & C).
  unfold metres. rewrite E. cbn [value]. rewrite !to_Q_finite, !sg_mul.
  apply (close_mul _ _ _ _ (Qlt_le_weak _ _ (scaleQ_positive To))) in C.
  apply (close_eq _ _ _ (absQ mm e * scaleQ From)) in C.
  - apply close_abs; [ | exact C].
    apply Qmult_lt_0_compat; [apply absQ_pos | apply scaleQ_positive].
  - rewrite <- Qmult_assoc, ratio_scale. reflexivity.
Qed.

(** X16. When [==] holds and the right operand is finite and in range, the
    two lengths agree in canonical metres within [3 * 2^-53]; within
    one unit they agree exactly. *)
Theorem eq_op_sound (U1 U2 : length_unit) (a b : double) :
  eq_op (mkLength U1 a) (mkLength U2 b) = true ->
  (in_range (-1008) 1009 b = true ->
   (Qabs (metres (mkLength U1 a) - metres (mkLength U2 b))
    <= eps_convert * Qabs (metres (mkLength U2 b)))%Q)
  /\ (U1 = U2 -> (metres (mkLength U1 a) == metres (mkLength U2 b))%Q).
Proof.
  intro H. unfold eq_op, eq_cross in H. cbn [value] in H. split.
  - intro Hr. destruct (is_same U1 U2) eqn:E.
    + apply is_same_eq in E. subst U2. apply feqb_eq_Q in H.
      unfold metres. cbn [value]. rewrite H.
      assert (E0 : (Double.to_Q b * scaleQ U1 - Double.to_Q b * scaleQ U1 == 0)%Q) by ring.
      rewrite E0. change (Qabs 0) with 0%Q.
      pose proof (Qabs_nonneg (Double.to_Q b * scaleQ U1)). unfold eps_convert. lra.
    + apply feqb_eq_Q in H.
      pose proof (convert_metres_error U2 U1 b Hr) as K.
      unfold metres in *. cbn [value] in *. rewrite H. exact K.
  - intros <-. rewrite is_same_refl in H. apply feqb_eq_Q in H.
    unfold metres. cbn [value]. rewrite H. reflexivity.
Qed.

Lemma eq_op_sound_witness :
  (Qabs (metres (mkLength inch (of_Z 12)) - metres (mkLength foot (of_Z 1)))
   <= eps_convert * Qabs (metres (mkLength foot (of_Z 1))))%Q
  /\ (metres (mkLength inch (of_Z 12)) == metres (mkLength inch (of_Z 12)))%Q.
Proof.
  split.
  - apply (proj1 (eq_op_sound inch foot (of_Z 12) (of_Z 1) eq_refl)). reflexivity.
  - apply (proj2 (eq_op_sound inch inch (of_Z 12) (of_Z 12) eq_refl)). reflexivity.
Defined.

(** X17. Adding or subtracting a zero length, of any unit and either sign,
    leaves a non-zero length unchanged. *)
Theorem add_subtract_zero (U1 U2 : length_unit) (a : double) (s : bool) :
  is_zero a = false ->
  add (mkLength U1 a) (mkLength U2 (S754_zero s)) = mkLength U1 a
  /\ subtract (mkLength U1 a) (mkLength U2 (S754_zero s)) = mkLength U1 a.
Proof.
  intro Ha. unfold add, subtract, add_cross, sub_cross. cbn [value].
  rewrite (convert_special U2 U1 (S754_zero s) eq_refl).
  assert (E1 : fadd a (S754_zero s) = a)
    by (destruct a as [sa | sa | | sa pa ea]; try reflexivity; discriminate).
  assert (E2 : fsub a (S754_zero s) = a)
    by (destruct a as [sa | sa | | sa pa ea]; try reflexivity; discriminate).
  rewrite E1, E2. split; destruct (is_same U1 U2); reflexivity.
Qed.

Lemma add_subtract_zero_witness :
  add (mkLength millimetre (of_Z 200)) (mkLength metre nzero)
  = mkLength millimetre (of_Z 200)
  /\ subtract (mkLength millimetre (of_Z 200)) (mkLength metre nzero)
     = mkLength millimetre (of_Z 200).
Proof. apply (add_subtract_zero millimetre metre (of_Z 200) true). reflexivity. Defined.
